(** * helm-values-schema-json: the schema generator (pkg/generator.go)

    A shallow embedding of [GenerateJsonSchema] and of the recursive
    [setAdditionalProperties] propagator, with the properties of the
    inference-and-merge engine stated over it.

    Go values are modelled as follows.
    - [map[string]*Schema] is a [gmap string (option Schema)]: a finite map
      with unique keys and no iteration order, whose values are pointers
      that may be nil ([None]).  A nil map and an empty map are both [∅]
      (the code under study only ranges over maps and stores into maps it
      has made, and both behave alike there).
    - [*Schema] and [*bool] fields are [option]s.
    - The fragments form a tree: no two fields point to the same fragment.
      An in-place update of a child is therefore the replacement of that
      child in its parent.
    - An [error] is the text of its message.  A run-time panic (index out of
      range) is an outcome of its own. *)

From stdpp Require Import gmap strings list fin_maps.
From Stdlib Require Import ZArith Zquot Strings.Byte.

#[local] Set Warnings "-register-all".

(** ** Schema fragments *)

(** Modelled from the spec: the declaration of the [Schema] struct is not in
    generator.go.  The fields are the ones generator.go reads and writes
    ([Type], [Properties], [Items], [Required], [Title], [Description],
    [ID], [AdditionalProperties]), with the types its uses force and the
    data model of the specification names.  [Type] is spelled [Type_]. *)
Inductive Schema : Type := mkSchema {
  Type_ : string;
  Properties : gmap string (option Schema);
  Items : option Schema;
  Required : list string;
  Title : string;
  Description : string;
  ID : string;
  AdditionalProperties : option bool
}.

(** [&Schema{}]: every field at its zero value. *)
Definition emptySchema : Schema := mkSchema "" ∅ None [] "" "" "" None.

(** The body of

      for _, v := range m { if v != nil { setAdditionalProperties(v, value) } }

    on a tree: every non-nil child is replaced by its updated version. *)
Definition rangeChildren (f : Schema → Schema)
    (m : gmap string (option Schema)) : gmap string (option Schema) :=
  fmap (M := gmap string) (fmap (M := option) f) m.

(** Assignments to one field of a fragment. *)
Definition setProperties (s : Schema) (props : gmap string (option Schema)) : Schema :=
  mkSchema (Type_ s) props (Items s) (Required s) (Title s) (Description s)
    (ID s) (AdditionalProperties s).

Definition setItems (s : Schema) (items : option Schema) : Schema :=
  mkSchema (Type_ s) (Properties s) items (Required s) (Title s)
    (Description s) (ID s) (AdditionalProperties s).

Definition setRequired (s : Schema) (required : list string) : Schema :=
  mkSchema (Type_ s) (Properties s) (Items s) required (Title s)
    (Description s) (ID s) (AdditionalProperties s).

Definition setAdditional (s : Schema) (ap : option bool) : Schema :=
  mkSchema (Type_ s) (Properties s) (Items s) (Required s) (Title s)
    (Description s) (ID s) ap.

(** [setAdditionalProperties(s, value)], generator.go lines 118-134.  The
    function returns the fragment as the in-place update leaves it: the
    field of [s] itself when [s] is an object (lines 119-121), then the
    children of [s.Properties] (lines 122-126), then the children of
    [s.Items.Properties] (lines 127-133). *)
Fixpoint setAdditionalProperties (s : Schema) (value : bool) {struct s} : Schema :=
  let visit := rangeChildren (λ v, setAdditionalProperties v value) in
  let s1 :=
    if decide (Type_ s = "object") then setAdditional s (Some value) else s in
  let s2 := setProperties s1 (visit (Properties s)) in
  match Items s with
  | Some it => setItems s2 (Some (setProperties it (visit (Properties it))))
  | None => s2
  end.

(** What the call does to the fragment held in [Items]: only the children
    of its [Properties] are visited (lines 127-133). *)
Definition setItemsProperties (value : bool) (it : Schema) : Schema :=
  setProperties it
    (rangeChildren (λ v, setAdditionalProperties v value) (Properties it)).

(** Number of fragments of a tree; the measure of the inductions below. *)
Fixpoint schemaSize (s : Schema) : nat :=
  match s with
  | mkSchema _ props items _ _ _ _ _ =>
      S (map_fold (λ _ ov n, match ov with
                             | Some v => schemaSize v + n
                             | None => n
                             end) 0 props
         + match items with Some it => schemaSize it | None => 0 end)
  end.

Definition childrenSize (m : gmap string (option Schema)) : nat :=
  map_fold (λ _ ov n, match ov with
                      | Some v => schemaSize v + n
                      | None => n
                      end) 0 m.

(** [subfragment t s]: [t] is a fragment of the tree [s], reached through
    [Properties] entries and [Items] fields. *)
Inductive subfragment (t : Schema) : Schema → Prop :=
  | sub_here : subfragment t t
  | sub_property s k v :
      Properties s !! k = Some (Some v) → subfragment t v → subfragment t s
  | sub_items s it :
      Items s = Some it → subfragment t it → subfragment t s.

(** A way down a tree: through the entry of [Properties] under a key, or
    through [Items]. *)
Inductive Step : Type :=
  | ViaProperty (k : string)
  | ViaItems.

(** The fragment a path leads to, if there is one. *)
Fixpoint fragmentAt (path : list Step) (s : Schema) {struct path} : option Schema :=
  match path with
  | [] => Some s
  | ViaProperty k :: path' =>
      match Properties s !! k with
      | Some (Some v) => fragmentAt path' v
      | _ => None
      end
  | ViaItems :: path' =>
      match Items s with
      | Some it => fragmentAt path' it
      | None => None
      end
  end.

(** The paths [setAdditionalProperties] follows: a step through [Items] is
    only taken together with a step into the [Properties] found there. *)
Fixpoint visited (path : list Step) {struct path} : bool :=
  match path with
  | [] => true
  | ViaProperty _ :: path' => visited path'
  | ViaItems :: ViaProperty _ :: path' => visited path'
  | ViaItems :: _ => false
  end.

(** The tree with every [AdditionalProperties] field blanked: what is left
    of a tree when that field is disregarded in all its fragments. *)
Fixpoint skeleton (s : Schema) : Schema :=
  mkSchema (Type_ s) (rangeChildren skeleton (Properties s))
    (match Items s with Some it => Some (skeleton it) | None => None end)
    (Required s) (Title s) (Description s) (ID s) None.

(** ** The traversal with Go's unspecified [range] order made explicit

    [range] over a map yields every entry once, in an order the run time
    chooses.  [rangeVisit call order m m'] runs the loop body over the
    entries in the order [order], starting from the map [m] and ending in
    [m']: a nil pointer is skipped, and a call on the child [v] that leaves
    it as [v'] is recorded at its key. *)
Inductive rangeVisit (call : Schema → Schema → Prop) :
    list (string * option Schema) →
    gmap string (option Schema) → gmap string (option Schema) → Prop :=
  | rangeVisit_done m : rangeVisit call [] m m
  | rangeVisit_nil k order m m' :
      rangeVisit call order m m' →
      rangeVisit call ((k, None) :: order) m m'
  | rangeVisit_call k v v' order m m' :
      call v v' →
      rangeVisit call order (<[k := Some v']> m) m' →
      rangeVisit call ((k, Some v) :: order) m m'.

(** The map the loop ends in when the call on a child [v] leaves it as
    [f v]. *)
Definition visitFold (f : Schema → Schema)
    (order : list (string * option Schema))
    (m : gmap string (option Schema)) : gmap string (option Schema) :=
  foldl (λ acc kv, match kv.2 with
                   | Some v => <[kv.1 := Some (f v)]> acc
                   | None => acc
                   end) m order.

(** Lines 127-133 under an arbitrary iteration order. *)
Inductive itemsVisit (call : Schema → Schema → Prop) :
    option Schema → option Schema → Prop :=
  | itemsVisit_nil : itemsVisit call None None
  | itemsVisit_some it order props' :
      order ≡ₚ map_to_list (Properties it) →
      rangeVisit call order (Properties it) props' →
      itemsVisit call (Some it) (Some (setProperties it props')).

(** [setAdditionalProperties_run value s s']: some execution of
    [setAdditionalProperties(s, value)] leaves the tree as [s']. *)
Inductive setAdditionalProperties_run (value : bool) : Schema → Schema → Prop :=
  | setAdditionalProperties_exec s order props' items' :
      order ≡ₚ map_to_list (Properties s) →
      rangeVisit (setAdditionalProperties_run value) order (Properties s) props' →
      itemsVisit (setAdditionalProperties_run value) (Items s) items' →
      setAdditionalProperties_run value s
        (mkSchema (Type_ s) props' items' (Required s) (Title s)
           (Description s) (ID s)
           (if decide (Type_ s = "object") then Some value
            else AdditionalProperties s)).

(** ** YAML documents (gopkg.in/yaml.v3)

    [yaml.Node] keeps the fields the generator reads.  [KindZero] is the
    kind of the zero [Node], which is what [yaml.Unmarshal] leaves for an
    empty document.  The children of a mapping node are its keys and values
    in turn. *)
Module yaml.

Inductive Kind : Set :=
  | KindZero | DocumentNode | SequenceNode | MappingNode | ScalarNode | AliasNode.

Inductive Node : Type := mkNode {
  NodeKind : Kind;
  Tag : string;
  Value : string;
  Content : list Node
}.

#[global] Instance Kind_eq_dec : EqDecision Kind.
Proof. solve_decision. Defined.

(** The zero [Node]. *)
Definition zeroNode : Node := mkNode KindZero "" "" [].

(** The [Content] of a mapping node with the given entries. *)
Definition mappingContent (entries : list (Node * Node)) : list Node :=
  flat_map (λ kv, [kv.1; kv.2]) entries.

(** An explicit null: a scalar tagged [!!null]. *)
Definition isNull (kind : Kind) (tag : string) : bool :=
  bool_decide (kind = ScalarNode ∧ tag = "!!null").

End yaml.

(** ** The node inferencer *)

(** Modelled from the spec: the schema type of a scalar, from its YAML tag
    (section 4.1: string, integer, float as [number], boolean or null).  The
    helper is not in generator.go; a tag outside the five leaves the type
    unset. *)
Definition scalarType (tag : string) : string :=
  if decide (tag = "!!str") then "string"
  else if decide (tag = "!!int") then "integer"
  else if decide (tag = "!!float") then "number"
  else if decide (tag = "!!bool") then "boolean"
  else if decide (tag = "!!null") then "null"
  else "".

(** A fragment with a type and nothing else. *)
Definition typedSchema (ty : string) : Schema :=
  mkSchema ty ∅ None [] "" "" "" None.

(** Modelled from the spec: [parseNode(keyNode, valNode)] is called by
    generator.go and defined elsewhere.  Section 4.1: a scalar gets the type
    of its tag; a mapping is an [object] whose [properties] hold the fragment
    of every key/value pair and whose [required] lists the keys whose value
    is required; a sequence is an [array] whose [items] is the fragment of
    its first element, and is left unset when the sequence is empty.  The
    flag is false exactly for an explicit null ("key present with a non-null
    value").  For the remaining kinds, of which the specification says
    nothing, no field is inferred. *)
Fixpoint parseNode (keyNode valNode : yaml.Node) {struct valNode} : Schema * bool :=
  match valNode with
  | yaml.mkNode kind tag value content =>
      let isRequired := negb (yaml.isNull kind tag) in
      match kind with
      | yaml.ScalarNode => (typedSchema (scalarType tag), isRequired)
      | yaml.MappingNode =>
          let children :=
            (fix pairs (l : list yaml.Node)
                 (properties : gmap string (option Schema))
                 (required : list string) {struct l} :=
               match l with
               | k :: v :: rest =>
                   let child := parseNode k v in
                   pairs rest (<[yaml.Value k := Some child.1]> properties)
                     (if child.2 then required ++ [yaml.Value k] else required)
               | _ => (properties, required)
               end) content ∅ [] in
          (mkSchema "object" children.1 None children.2 "" "" "" None,
           isRequired)
      | yaml.SequenceNode =>
          (mkSchema "array" ∅
             (match content with
              | first :: _ => Some (parseNode keyNode first).1
              | [] => None
              end) [] "" "" "" None,
           isRequired)
      | _ => (emptySchema, isRequired)
      end
  end.

(** The loop of [parseNode] over the children of a mapping node, on its
    own. *)
Fixpoint parsePairs (l : list yaml.Node)
    (properties : gmap string (option Schema)) (required : list string)
    {struct l} : gmap string (option Schema) * list string :=
  match l with
  | k :: v :: rest =>
      let child := parseNode k v in
      parsePairs rest (<[yaml.Value k := Some child.1]> properties)
        (if child.2 then required ++ [yaml.Value k] else required)
  | _ => (properties, required)
  end.

(** The keys of the entries of a mapping, and those among them whose value
    is required. *)
Definition entryKeys (entries : list (yaml.Node * yaml.Node)) : list string :=
  (λ kv, yaml.Value kv.1) <$> entries.

Definition requiredKeys (entries : list (yaml.Node * yaml.Node)) : list string :=
  entryKeys (filter (λ kv, (parseNode kv.1 kv.2).2 = true) entries).

(** ** Merging *)

Definition appendUnique (acc : list string) (x : string) : list string :=
  if decide (x ∈ acc) then acc else acc ++ [x].

(** The names of a list in the order of their first occurrence. *)
Definition dedupFirst (l : list string) : list string :=
  foldl appendUnique [] l.

(** Modelled from the spec: [uniqueStringAppend(dest, src...)] is called by
    generator.go and defined elsewhere.  Section 4.2: the lists "are merged
    as a deduplicated union, preserving first-seen order". *)
Definition uniqueStringAppend (dest src : list string) : list string :=
  dedupFirst (dest ++ src).

(** [s] is the zero fragment [&Schema{}]. *)
Definition isEmptySchema (s : Schema) : bool :=
  bool_decide (Type_ s = "" ∧ Properties s = ∅ ∧ Items s = None ∧
               Required s = [] ∧ Title s = "" ∧ Description s = "" ∧
               ID s = "" ∧ AdditionalProperties s = None).

(** Modelled from the spec: [mergeSchemas(base, incoming)] is called by
    generator.go and defined elsewhere.  Section 4.2: merging into the empty
    aggregate gives the incoming fragment; two objects are merged by the
    union of their [properties], with the fragments under a common key
    merged in turn, and by the deduplicated union of their [required]
    lists; in every other case, and for every other field, the incoming
    fragment wins.  A nil pointer under a key gives way to the fragment on
    the other side. *)
Fixpoint mergeSchemas (base incoming : Schema) {struct base} : Schema :=
  match base with
  | mkSchema bty bprops bitems breq btitle bdescr bid bap =>
      if isEmptySchema (mkSchema bty bprops bitems breq btitle bdescr bid bap)
      then incoming
      else if bool_decide (bty = "object" ∧ Type_ incoming = "object") then
        mkSchema "object"
          (union_with
             (λ ob oi, Some match ob, oi with
                            | Some b, Some i => Some (mergeSchemas b i)
                            | None, _ => oi
                            | _, None => ob
                            end)
             bprops (Properties incoming))
          (Items incoming)
          (uniqueStringAppend breq (Required incoming))
          (Title incoming) (Description incoming) (ID incoming)
          (AdditionalProperties incoming)
      else incoming
  end.

(** ** Configuration *)

(** Modelled from the spec: the [Config] struct and its flag type are
    declared outside generator.go.  The fields are the ones generator.go
    reads; a boolean flag answers [IsSet()] and [Value()] (section 6: "a
    boolean-or-unset" flag).  The draft identifier is only handed to
    [getSchemaURL]; it is taken to be an integer. *)
Module Cfg.

Record BoolFlag := mkBoolFlag { IsSet : bool; Value : bool }.

Module Root.
Record t := mk {
  ID : string;
  Title : string;
  Description : string;
  AdditionalProperties : BoolFlag
}.
End Root.

Module All.
Record t := mk { AdditionalProperties : BoolFlag }.
End All.

Record Config := mkConfig {
  Input : list string;
  OutputPath : string;
  Draft : Z;
  Indent : Z;
  SchemaRoot : Root.t;
  SchemaAll : All.t
}.

End Cfg.

(** ** Results, effects and the collaborators *)

Definition error : Type := string.

(** A Go [(T, error)] pair: the value, or the non-nil error. *)
Inductive result (A : Type) : Type :=
  | Ok (a : A)
  | Err (e : error).
Arguments Ok {A} a.
Arguments Err {A} e.

(** How a call ends: it returns, returns a non-nil error, or panics. *)
Inductive outcome (A : Type) : Type :=
  | Return (a : A)
  | Raise (e : error)
  | Panic.
Arguments Return {A} a.
Arguments Raise {A} e.
Arguments Panic {A}.

(** What a run does to the outside world, in order. *)
Inductive Event : Type :=
  | EvReadFile (path : string)
  | EvHttpGet (url : string)
  | EvWriteFile (path : string) (data : list byte)
  | EvPrintln (line : string).

(** A computation: the events it performs and how it ends. *)
Definition M (A : Type) : Type := (list Event * outcome A)%type.

#[global] Instance M_ret : MRet M := λ A a, ([], Return a).

#[global] Instance M_bind : MBind M := λ A B f m,
  match m.2 with
  | Return a => (m.1 ++ (f a).1, (f a).2)
  | Raise e => (m.1, Raise e)
  | Panic => (m.1, Panic)
  end.

Definition raise {A} (e : error) : M A := ([], Raise e).
Definition emit (ev : Event) : M unit := ([ev], Return tt).

(** The outcome of a collaborator's [(T, error)] pair. *)
Definition lift {A} (r : result A) : M A :=
  match r with Ok a => mret a | Err e => raise e end.

(** [x, err := call; if err != nil { return errors.New(msg) }] *)
Definition orFail {A} (msg : error) (m : M A) : M A :=
  match m.2 with
  | Raise _ => (m.1, Raise msg)
  | _ => m
  end.

(** An HTTP response, as far as [downloadFile] looks at it; [Body] is what
    [io.ReadAll(resp.Body)] gives. *)
Record Response := mkResponse {
  StatusCode : Z;
  Status : string;
  Body : result (list byte)
}.

(** A JSON value: what the map handed to [json.MarshalIndent] holds. *)
Inductive JSON : Type :=
  | JNull
  | JBool (b : bool)
  | JString (s : string)
  | JArray (l : list JSON)
  | JObject (m : gmap string JSON).

(** What the generator calls and does not define: the file system, the
    network, the YAML and JSON libraries, and two functions of the package
    that live outside generator.go, [getSchemaURL], the table from draft
    identifiers to schema URLs, and [convertSchemaToMap], the materializer.
    Each is a function of its arguments. *)
Record World := mkWorld {
  getSchemaURL : Z → result string;
  os_ReadFile : string → result (list byte);
  http_Get : string → result Response;
  yaml_Unmarshal : list byte → result yaml.Node;
  convertSchemaToMap : Schema → result (gmap string JSON);
  json_MarshalIndent : gmap string JSON → string → string → result (list byte);
  os_WriteFile : string → list byte → option error
}.

(** ** The generator *)

(** [isURL], lines 144-146. *)
Definition isURL (path : string) : bool :=
  String.prefix "http://" path || String.prefix "https://" path.

(** [downloadFile], lines 148-160. *)
Definition downloadFile (w : World) (url : string) : M (list byte) :=
  _ ← emit (EvHttpGet url);
  resp ← lift (http_Get w url);
  if decide (StatusCode resp ≠ 200%Z)
  then raise ("failed to download file: " +:+ Status resp)
  else lift (Body resp).

(** [getFileContent], lines 136-142. *)
Definition getFileContent (w : World) (filePath : string) : M (list byte) :=
  if isURL filePath then downloadFile w filePath
  else (_ ← emit (EvReadFile filePath); lift (os_ReadFile w filePath)).

(** The loop of lines 60-68 over [rootNode.Content], two nodes at a time.
    [rootNode.Content[i+1]] is out of range when a last node has no
    partner. *)
Fixpoint rootLoop (content : list yaml.Node)
    (properties : gmap string (option Schema)) (required : list string)
    {struct content} : outcome (gmap string (option Schema) * list string) :=
  match content with
  | [] => Return (properties, required)
  | keyNode :: valNode :: rest =>
      let '(schema, isRequired) := parseNode keyNode valNode in
      rootLoop rest (<[yaml.Value keyNode := Some schema]> properties)
        (if isRequired then required ++ [yaml.Value keyNode] else required)
  | [_] => Panic
  end.

(** Lines 42-68: what one input file contributes.  [None] is the empty
    document of lines 52-54; otherwise the properties and the required keys
    of the root node. *)
Definition inferFile (w : World) (filePath : string)
    : M (option (gmap string (option Schema) * list string)) :=
  content ← orFail "error reading YAML file(s)" (getFileContent w filePath);
  node ← orFail "error unmarshaling YAML" (lift (yaml_Unmarshal w content));
  match yaml.Content node with
  | [] => mret None
  | rootNode :: _ =>
      inferred ← ([], rootLoop (yaml.Content rootNode) ∅ []);
      mret (Some inferred)
  end.

(** Lines 70-82: the temporary fragment of a file, merged into the
    aggregate. *)
Definition mergeFile (config : Cfg.Config) (mergedSchema : Schema)
    (properties : gmap string (option Schema)) (required : list string) : Schema :=
  let tempSchema :=
    mkSchema "object" properties None required
      (Cfg.Root.Title (Cfg.SchemaRoot config)) (Cfg.Root.Description (Cfg.SchemaRoot config))
      (Cfg.Root.ID (Cfg.SchemaRoot config)) None in
  let mergedSchema := mergeSchemas mergedSchema tempSchema in
  setRequired mergedSchema
    (uniqueStringAppend (Required mergedSchema) required).

(** The body of the loop over [config.Input], lines 41-83. *)
Definition processFile (w : World) (config : Cfg.Config)
    (mergedSchema : Schema) (filePath : string) : M Schema :=
  inferred ← inferFile w filePath;
  match inferred with
  | None => mret mergedSchema
  | Some (properties, required) =>
      mret (mergeFile config mergedSchema properties required)
  end.

(** The loop over [config.Input], lines 41-83. *)
Fixpoint processFiles (w : World) (config : Cfg.Config)
    (input : list string) (mergedSchema : Schema) {struct input} : M Schema :=
  match input with
  | [] => mret mergedSchema
  | filePath :: rest =>
      mergedSchema ← processFile w config mergedSchema filePath;
      processFiles w config rest mergedSchema
  end.

(** Lines 85-91: the root-only policy, then the policy for all levels.
    [propagate] is the call of [setAdditionalProperties]. *)
Definition applyAdditionalProperties (propagate : Schema → bool → Schema)
    (config : Cfg.Config) (mergedSchema : Schema) : Schema :=
  let mergedSchema :=
    if Cfg.IsSet (Cfg.Root.AdditionalProperties (Cfg.SchemaRoot config))
    then setAdditional mergedSchema
           (Some (Cfg.Value (Cfg.Root.AdditionalProperties (Cfg.SchemaRoot config))))
    else mergedSchema in
  if Cfg.IsSet (Cfg.All.AdditionalProperties (Cfg.SchemaAll config))
  then propagate mergedSchema
         (Cfg.Value (Cfg.All.AdditionalProperties (Cfg.SchemaAll config)))
  else mergedSchema.

(** [strings.Repeat(s, count)] for a count that is not negative. *)
Definition strings_Repeat (s : string) (count : Z) : string :=
  Nat.iter (Z.to_nat count) (String.append s) "".

(** Lines 93-115: the fragment is turned into a map, serialized and
    written to the output file. *)
Definition writeSchema (w : World) (config : Cfg.Config)
    (schemaURL indentString : string) (mergedSchema : Schema) : M unit :=
  jsonSchemaMap ← lift (convertSchemaToMap w mergedSchema);
  let jsonSchemaMap := <["$schema" := JString schemaURL]> jsonSchemaMap in
  jsonBytes ← lift (json_MarshalIndent w jsonSchemaMap "" indentString);
  let jsonBytes := jsonBytes ++ [x0a] in
  _ ← emit (EvWriteFile (Cfg.OutputPath config) jsonBytes);
  match os_WriteFile w (Cfg.OutputPath config) jsonBytes with
  | Some _ => raise "error writing schema to file"
  | None =>
      _ ← emit (EvPrintln "JSON schema successfully generated");
      mret tt
  end.

(** [GenerateJsonSchema], lines 16-116, with the call of
    [setAdditionalProperties] as a parameter. *)
Definition GenerateJsonSchema_with (propagate : Schema → bool → Schema)
    (w : World) (config : Cfg.Config) : M unit :=
  if decide (length (Cfg.Input config) = 0) then raise "input flag is required"
  else
    schemaURL ← lift (getSchemaURL w (Cfg.Draft config));
    if decide (Cfg.Indent config ≤ 0)%Z
    then raise "indentation must be a positive number"
    else if decide (Z.rem (Cfg.Indent config) 2 ≠ 0%Z)
    then raise "indentation must be an even number"
    else
      let indentString := strings_Repeat " " (Cfg.Indent config) in
      mergedSchema ← processFiles w config (Cfg.Input config) emptySchema;
      writeSchema w config schemaURL indentString
        (applyAdditionalProperties propagate config mergedSchema).

(** [GenerateJsonSchema], lines 16-116. *)
Definition GenerateJsonSchema (w : World) (config : Cfg.Config) : M unit :=
  GenerateJsonSchema_with setAdditionalProperties w config.

(** A run of [GenerateJsonSchema] under some choice of the iteration orders
    of [setAdditionalProperties]. *)
Definition GenerateJsonSchema_run (w : World) (config : Cfg.Config)
    (out : M unit) : Prop :=
  ∃ propagate : Schema → bool → Schema,
    (∀ s value, setAdditionalProperties_run value s (propagate s value)) ∧
    out = GenerateJsonSchema_with propagate w config.

(** The run wrote, or tried to write, an output file. *)
Definition wroteOutput (trace : list Event) : bool :=
  existsb (λ ev, match ev with EvWriteFile _ _ => true | _ => false end) trace.

(** [needle] occurs in [s]. *)
Fixpoint mentions (needle s : string) {struct s} : bool :=
  String.prefix needle s ||
  match s with
  | EmptyString => false
  | String _ s' => mentions needle s'
  end.

(** The file cannot be read (or fetched), or its content is not YAML. *)
Definition fileFails (w : World) (filePath : string) : Prop :=
  (∃ tr e, getFileContent w filePath = (tr, Raise e)) ∨
  (∃ tr content e, getFileContent w filePath = (tr, Return content) ∧
                   yaml_Unmarshal w content = Err e).

(** The two errors lines 44 and 49 return. *)
Definition inputErrors : list error :=
  ["error reading YAML file(s)"; "error unmarshaling YAML"].

(** ** The run as a sequence of merges *)

(** What a file adds to the aggregate: nothing when it is empty (or cannot
    be processed), otherwise its properties and required keys. *)
Definition fileContribution (w : World) (filePath : string)
    : option (gmap string (option Schema) * list string) :=
  match (inferFile w filePath).2 with
  | Return (Some inferred) => Some inferred
  | _ => None
  end.

Definition contributions (w : World) (input : list string)
    : list (gmap string (option Schema) * list string) :=
  omap (fileContribution w) input.

(** The merges of lines 70-82, one per contributing file, in order. *)
Definition mergeAll (config : Cfg.Config) (mergedSchema : Schema)
    (files : list (gmap string (option Schema) * list string)) : Schema :=
  foldl (λ merged file, mergeFile config merged file.1 file.2) mergedSchema files.

(** ** Sample inputs *)

Module Sample.

Definition scalar (tag value : string) : yaml.Node :=
  yaml.mkNode yaml.ScalarNode tag value [].
Definition key (name : string) : yaml.Node := scalar "!!str" name.
Definition mapping (entries : list (yaml.Node * yaml.Node)) : yaml.Node :=
  yaml.mkNode yaml.MappingNode "!!map" "" (yaml.mappingContent entries).
Definition sequence (elements : list yaml.Node) : yaml.Node :=
  yaml.mkNode yaml.SequenceNode "!!seq" "" elements.
Definition document (root : yaml.Node) : yaml.Node :=
  yaml.mkNode yaml.DocumentNode "" "" [root].

(** [name: web] and [note: null] (written [~]). *)
Definition nameAndNote : list (yaml.Node * yaml.Node) :=
  [(key "name", scalar "!!str" "web"); (key "note", scalar "!!null" "~")].

(** The document [servers: [{name: web}]]. *)
Definition serversDoc : yaml.Node :=
  document (mapping
    [(key "servers", sequence [mapping [(key "name", scalar "!!str" "web")]])]).

(** The document of [nameAndNote]. *)
Definition nameDoc : yaml.Node := document (mapping nameAndNote).

(** The entries of [{name: "a", age: 5, tags: ["x"]}], of [{id: 1}] and of
    [{name: "x"}] (section 8 of the specification). *)
Definition person : list (yaml.Node * yaml.Node) :=
  [(key "name", scalar "!!str" "a"); (key "age", scalar "!!int" "5");
   (key "tags", sequence [scalar "!!str" "x"])].
Definition idOnly : list (yaml.Node * yaml.Node) :=
  [(key "id", scalar "!!int" "1")].
Definition nameOnly : list (yaml.Node * yaml.Node) :=
  [(key "name", scalar "!!str" "x")].

(** A file system with four files, told apart by their first byte:
    [empty.yaml] is empty, [servers.yaml] and [name.yaml] hold the documents
    above, [broken.yaml] is not YAML; no other file can be read. *)
Definition readFile (path : string) : result (list byte) :=
  if decide (path = "empty.yaml") then Ok []
  else if decide (path = "servers.yaml") then Ok [x73]
  else if decide (path = "name.yaml") then Ok [x6e]
  else if decide (path = "broken.yaml") then Ok [x7b]
  else Err ("open " +:+ path +:+ ": no such file or directory").

Definition unmarshal (content : list byte) : result yaml.Node :=
  match content with
  | [] => Ok yaml.zeroNode
  | b :: _ =>
      if Byte.eqb b x73 then Ok serversDoc
      else if Byte.eqb b x6e then Ok nameDoc
      else Err "yaml: did not find expected node content"
  end.

Definition schemaURL (draft : Z) : result string :=
  if decide (draft = 2020%Z)
  then Ok "https://json-schema.org/draft/2020-12/schema"
  else Err "invalid draft version".

Definition world : World :=
  mkWorld schemaURL readFile (λ _, Err "no route to host") unmarshal
    (λ _, Ok ∅) (λ _ _ _, Ok []) (λ _ _, None).

Definition flagTrue : Cfg.BoolFlag := Cfg.mkBoolFlag true true.
Definition flagFalse : Cfg.BoolFlag := Cfg.mkBoolFlag true false.

(** A configuration with a title, the root-only policy [true] and the
    policy for all levels [false]. *)
Definition configOf (input : list string) (indent : Z) : Cfg.Config :=
  Cfg.mkConfig input "values.schema.json" 2020 indent
    (Cfg.Root.mk "" "Values" "" flagTrue) (Cfg.All.mk flagFalse).

(** The fragment inferred from [servers.yaml]. *)
Definition serversSchema : Schema :=
  mkSchema "object"
    {[ "servers" :=
         Some (mkSchema "array" ∅
                 (Some (mkSchema "object"
                          {[ "name" := Some (typedSchema "string") ]}
                          None ["name"] "" "" "" None))
                 [] "" "" "" None) ]}
    None ["servers"] "Values" "" "" None.

End Sample.

(** ** Further notions *)

(** How a call of [setAdditionalProperties] on the root of a tree stands to
    the fragment at the end of a path: the call recurses into it, or it is
    the fragment held in the [Items] of one the call recursed into (whose
    [Properties] are visited, and nothing else), or the call never comes
    near it. *)
Inductive Reach : Set :=
  | Followed
  | HeldInItems
  | Untouched.

Definition reachStep (r : Reach) (step : Step) : Reach :=
  match r, step with
  | Followed, ViaProperty _ => Followed
  | Followed, ViaItems => HeldInItems
  | HeldInItems, ViaProperty _ => Followed
  | HeldInItems, ViaItems => Untouched
  | Untouched, _ => Untouched
  end.

Definition reachFrom (r : Reach) (path : list Step) : Reach :=
  foldl reachStep r path.

Definition reach (path : list Step) : Reach := reachFrom Followed path.

(** What the call on the root does to the fragment, by how it stands to it. *)
Definition effectAt (value : bool) (r : Reach) (t : Schema) : Schema :=
  match r with
  | Followed => setAdditionalProperties t value
  | HeldInItems => setItemsProperties value t
  | Untouched => t
  end.

(** The one access [getFileContent] makes for a path. *)
Definition accessEvent (filePath : string) : Event :=
  if isURL filePath then EvHttpGet filePath else EvReadFile filePath.

(** The errors [GenerateJsonSchema] makes itself (lines 19, 30, 33, 44, 49
    and 110). *)
Definition fixedErrors : list error :=
  ["input flag is required"; "indentation must be a positive number";
   "indentation must be an even number"; "error reading YAML file(s)";
   "error unmarshaling YAML"; "error writing schema to file"].

(** The values of the nodes the loop of lines 60-68 takes as keys: those at
    the even positions that have a partner. *)
Fixpoint contentKeys (content : list yaml.Node) {struct content} : list string :=
  match content with
  | keyNode :: _ :: rest => yaml.Value keyNode :: contentKeys rest
  | _ => []
  end.

(** Further sample inputs: a file whose document is the sequence
    [[a, b, c]], and two URLs, one answering [200] with the content of
    [name.yaml], one answering [404] with the same body. *)
Module SampleNet.

Definition listDoc : yaml.Node :=
  Sample.document
    (Sample.sequence [Sample.scalar "!!str" "a"; Sample.scalar "!!str" "b";
                      Sample.scalar "!!str" "c"]).

Definition readFile (path : string) : result (list byte) :=
  if decide (path = "list.yaml") then Ok [x2d] else Sample.readFile path.

Definition unmarshal (content : list byte) : result yaml.Node :=
  match content with
  | b :: _ => if Byte.eqb b x2d then Ok listDoc else Sample.unmarshal content
  | [] => Sample.unmarshal content
  end.

Definition httpGet (url : string) : result Response :=
  if decide (url = "https://example.com/values.yaml")
  then Ok (mkResponse 200 "200 OK" (Ok [x6e]))
  else if decide (url = "https://example.com/gone.yaml")
  then Ok (mkResponse 404 "404 Not Found" (Ok [x6e]))
  else Err "dial tcp: no such host".

Definition world : World :=
  mkWorld Sample.schemaURL readFile httpGet unmarshal
    (λ _, Ok ∅) (λ _ _ _, Ok []) (λ _ _, None).

End SampleNet.

(** * Properties *)

(** ** Fragment trees *)

Lemma setAdditionalProperties_unfold s value :
  setAdditionalProperties s value =
  mkSchema (Type_ s)
    (rangeChildren (λ v, setAdditionalProperties v value) (Properties s))
    (setItemsProperties value <$> Items s)
    (Required s) (Title s) (Description s) (ID s)
    (if decide (Type_ s = "object") then Some value
     else AdditionalProperties s).
Proof.
  destruct s as [ty props items req title descr id ap]; simpl.
  destruct items as [it|]; case_decide; reflexivity.
Qed.

Lemma skeleton_unfold s :
  skeleton s =
  mkSchema (Type_ s) (rangeChildren skeleton (Properties s))
    (skeleton <$> Items s) (Required s) (Title s) (Description s) (ID s) None.
Proof.
  destruct s as [ty props items req title descr id ap]; simpl.
  unfold rangeChildren. by f_equal.
Qed.

Lemma rangeChildren_lookup f m k :
  rangeChildren f m !! k = fmap (fmap f) (m !! k).
Proof. unfold rangeChildren. by rewrite lookup_fmap. Qed.

Lemma rangeChildren_ext f g m :
  (∀ k v, m !! k = Some (Some v) → f v = g v) →
  rangeChildren f m = rangeChildren g m.
Proof.
  intros Hfg. unfold rangeChildren. apply map_fmap_ext.
  intros k [v|] Hk; simpl; [|done]. f_equal. eauto.
Qed.

Lemma rangeChildren_compose f g m :
  rangeChildren f (rangeChildren g m) = rangeChildren (f ∘ g) m.
Proof.
  unfold rangeChildren. rewrite <-map_fmap_compose.
  apply map_fmap_ext. by intros k [v|] _.
Qed.

Lemma schemaSize_unfold s :
  schemaSize s =
  S (childrenSize (Properties s)
     + match Items s with Some it => schemaSize it | None => 0 end).
Proof. by destruct s. Qed.

Lemma childrenSize_lookup m k v :
  m !! k = Some (Some v) → schemaSize v ≤ childrenSize m.
Proof.
  unfold childrenSize. revert k v.
  apply (map_fold_weak_ind
           (λ r m, ∀ k v, m !! k = Some (Some v) → schemaSize v ≤ r)).
  - intros k v. by rewrite lookup_empty.
  - intros i x m' r Hfresh IH k v. rewrite lookup_insert.
    case_decide as Hik.
    + intros [= ->]. lia.
    + intros Hk. specialize (IH _ _ Hk). destruct x; lia.
Qed.

Lemma schemaSize_child s k v :
  Properties s !! k = Some (Some v) → schemaSize v < schemaSize s.
Proof.
  intros Hk. apply childrenSize_lookup in Hk.
  rewrite (schemaSize_unfold s). lia.
Qed.

Lemma schemaSize_items s it :
  Items s = Some it → schemaSize it < schemaSize s.
Proof. intros Hit. rewrite (schemaSize_unfold s), Hit. lia. Qed.

Lemma Schema_size_ind (P : Schema → Prop) :
  (∀ s, (∀ s', schemaSize s' < schemaSize s → P s') → P s) → ∀ s, P s.
Proof.
  intros step s. remember (schemaSize s) as n eqn:Hn. revert s Hn.
  induction (lt_wf n) as [n _ IH]. intros s ->.
  apply step. intros s' Hlt. by apply (IH (schemaSize s')).
Qed.

(** ** The propagator leaves everything but [AdditionalProperties] alone *)

Lemma skeleton_setAdditionalProperties s value :
  skeleton (setAdditionalProperties s value) = skeleton s.
Proof.
  induction s as [s IH] using Schema_size_ind.
  rewrite (skeleton_unfold (setAdditionalProperties s value)).
  rewrite (skeleton_unfold s), setAdditionalProperties_unfold; simpl.
  f_equal.
  - rewrite rangeChildren_compose. apply rangeChildren_ext.
    intros k v Hk; simpl. apply IH. by eapply schemaSize_child.
  - destruct (Items s) as [it|] eqn:Hit; [|done].
    change (Some (skeleton (setItemsProperties value it)) = Some (skeleton it)).
    f_equal.
    rewrite (skeleton_unfold (setItemsProperties value it)).
    rewrite (skeleton_unfold it); simpl. f_equal.
    rewrite rangeChildren_compose. apply rangeChildren_ext.
    intros k v Hk; simpl. apply IH.
    etrans; [by eapply schemaSize_child|by apply schemaSize_items].
Qed.

(** C10.  [setAdditionalProperties] changes no field but
    [AdditionalProperties], in no fragment of the tree: the two trees are
    equal once that field is disregarded everywhere; at the root [Type],
    [Required], [Title], [Description] and [ID] are as before, [Properties]
    has the same keys, with a nil pointer exactly where there was one, and
    [Items] is set exactly when it was. *)
Theorem setAdditionalProperties_frame (s : Schema) (value : bool) :
  let s' := setAdditionalProperties s value in
  skeleton s' = skeleton s ∧
  Type_ s' = Type_ s ∧ Required s' = Required s ∧ Title s' = Title s ∧
  Description s' = Description s ∧ ID s' = ID s ∧
  dom (Properties s') = dom (Properties s) ∧
  (∀ k, Properties s' !! k = Some None ↔ Properties s !! k = Some None) ∧
  (Items s' = None ↔ Items s = None).
Proof.
  simpl. split; [apply skeleton_setAdditionalProperties|].
  rewrite setAdditionalProperties_unfold; simpl.
  repeat split; try done.
  - unfold rangeChildren. by rewrite dom_fmap_L.
  - rewrite rangeChildren_lookup.
    destruct (Properties s !! k) as [[v|]|]; simpl; congruence.
  - rewrite rangeChildren_lookup.
    destruct (Properties s !! k) as [[v|]|]; simpl; congruence.
  - by destruct (Items s).
  - by intros ->.
Qed.

(** ** What [setAdditionalProperties] reaches *)

Lemma setAdditionalProperties_root_object s value :
  Type_ s = "object" →
  AdditionalProperties (setAdditionalProperties s value) = Some value.
Proof.
  intros Hty. rewrite setAdditionalProperties_unfold; simpl.
  by rewrite decide_True.
Qed.

Lemma setAdditionalProperties_root_other s value :
  Type_ s ≠ "object" →
  AdditionalProperties (setAdditionalProperties s value) = AdditionalProperties s.
Proof.
  intros Hty. rewrite setAdditionalProperties_unfold; simpl.
  by rewrite decide_False.
Qed.

Lemma setAdditionalProperties_lookup s value k :
  Properties (setAdditionalProperties s value) !! k =
  fmap (fmap (λ v, setAdditionalProperties v value)) (Properties s !! k).
Proof.
  rewrite setAdditionalProperties_unfold; simpl. apply rangeChildren_lookup.
Qed.

Lemma setAdditionalProperties_items s value :
  Items (setAdditionalProperties s value) = setItemsProperties value <$> Items s.
Proof. by rewrite setAdditionalProperties_unfold. Qed.

(** The fragment held in [Items] is not itself visited: whatever its type,
    its [AdditionalProperties] is what it was, and so is the fragment in
    its own [Items]. *)
Lemma setAdditionalProperties_items_kept s value it :
  Items s = Some it →
  ∃ it', Items (setAdditionalProperties s value) = Some it' ∧
         Type_ it' = Type_ it ∧
         AdditionalProperties it' = AdditionalProperties it ∧
         Items it' = Items it.
Proof.
  intros Hit. rewrite setAdditionalProperties_items, Hit.
  by eexists.
Qed.

(** What the call does, fragment by fragment: the fragments stay where they
    are and keep their type; an object on a path the call follows gets the
    value, and every other fragment keeps its [AdditionalProperties]. *)
Lemma setAdditionalProperties_at value path s t :
  fragmentAt path s = Some t →
  ∃ t', fragmentAt path (setAdditionalProperties s value) = Some t' ∧
        Type_ t' = Type_ t ∧
        AdditionalProperties t' =
          (if visited path && bool_decide (Type_ t = "object")
           then Some value else AdditionalProperties t).
Proof.
  remember (length path) as n eqn:Hn. revert path s t Hn.
  induction (lt_wf n) as [n _ IH]. intros path s t -> Hat.
  destruct path as [|[k|] path]; simpl in Hat.
  - injection Hat as <-. eexists. split; [done|].
    rewrite setAdditionalProperties_unfold; simpl. split; [done|].
    destruct (decide (Type_ s = "object")) as [Hty|Hty];
      [rewrite bool_decide_eq_true_2 by done
      |rewrite bool_decide_eq_false_2 by done]; done.
  - destruct (Properties s !! k) as [[v|]|] eqn:Hk; try done.
    destruct (IH (length path) (Nat.lt_succ_diag_r _) path v t eq_refl Hat)
      as (t' & Hat' & Hty & Hap).
    exists t'. split; [|done]. simpl.
    by rewrite setAdditionalProperties_lookup, Hk.
  - destruct (Items s) as [it|] eqn:Hit; [|done].
    cbn [fragmentAt]. rewrite setAdditionalProperties_items, Hit.
    cbn [fmap option_fmap option_map].
    destruct path as [|[k|] path]; simpl in Hat.
    + injection Hat as <-. by eexists.
    + destruct (Properties it !! k) as [[v|]|] eqn:Hk; try done.
      destruct (IH (length path) ltac:(simpl; lia) path v t eq_refl Hat)
        as (t' & Hat' & Hty & Hap).
      exists t'. split; [|done]. cbn [fragmentAt]. unfold setItemsProperties.
      cbn [Properties setProperties]. by rewrite rangeChildren_lookup, Hk.
    + exists t. by split.
Qed.

(** C1, at the fragment inferred from [servers: [{name: web}]].  The file
    yields [Sample.serversSchema]; after the call with [false] the root
    carries [false], and the object under [servers.items], a fragment of the
    tree whose type is [object], still has no [AdditionalProperties]. *)
Theorem setAdditionalProperties_misses_items :
  (processFiles Sample.world (Sample.configOf ["servers.yaml"] 4)
     ["servers.yaml"] emptySchema).2 = Return Sample.serversSchema ∧
  let s' := setAdditionalProperties Sample.serversSchema false in
  AdditionalProperties s' = Some false ∧
  ∃ servers it,
    Properties s' !! "servers" = Some (Some servers) ∧
    Items servers = Some it ∧
    subfragment it s' ∧
    Type_ it = "object" ∧
    AdditionalProperties it = None.
Proof.
  split; [by vm_compute|]. intros s'. split; [by vm_compute|].
  eexists _, _. split; [vm_compute; reflexivity|]. split; [reflexivity|].
  split; [|by split].
  eapply (sub_property _ _ "servers"); [vm_compute; reflexivity|].
  eapply sub_items; [reflexivity|]. apply sub_here.
Qed.

(** ** The inferencer: required keys *)

Lemma parseNode_required keyNode valNode :
  (parseNode keyNode valNode).2 =
  negb (yaml.isNull (yaml.NodeKind valNode) (yaml.Tag valNode)).
Proof. by destruct valNode as [[] tag value content]. Qed.

Lemma parseNode_null keyNode valNode :
  yaml.isNull (yaml.NodeKind valNode) (yaml.Tag valNode) = true →
  Type_ (parseNode keyNode valNode).1 = "null".
Proof.
  destruct valNode as [kind tag value content]; simpl.
  unfold yaml.isNull. intros [-> ->]%bool_decide_eq_true. reflexivity.
Qed.

Lemma parseNode_mapping keyNode tag value content :
  (parseNode keyNode (yaml.mkNode yaml.MappingNode tag value content)).1 =
  mkSchema "object" (parsePairs content ∅ []).1 None
    (parsePairs content ∅ []).2 "" "" "" None.
Proof. reflexivity. Qed.

Lemma rootLoop_mappingContent entries properties required :
  rootLoop (yaml.mappingContent entries) properties required =
  Return (parsePairs (yaml.mappingContent entries) properties required).
Proof.
  revert properties required.
  induction entries as [|[k v] entries IH]; intros properties required;
    [done|]; simpl.
  destruct (parseNode k v) as [schema isRequired]; simpl. apply IH.
Qed.

Lemma parsePairs_required entries properties required :
  (parsePairs (yaml.mappingContent entries) properties required).2 =
  required ++ requiredKeys entries.
Proof.
  revert properties required. unfold requiredKeys, entryKeys.
  induction entries as [|[k v] entries IH]; intros properties required; simpl.
  - by rewrite app_nil_r.
  - rewrite IH, filter_cons; simpl.
    destruct (parseNode k v).2 eqn:Hreq.
    + rewrite decide_True by done. by rewrite <-app_assoc.
    + by rewrite decide_False by done.
Qed.

Lemma parsePairs_lookup_other entries properties required name :
  name ∉ entryKeys entries →
  (parsePairs (yaml.mappingContent entries) properties required).1 !! name =
  properties !! name.
Proof.
  revert properties required. unfold entryKeys.
  induction entries as [|[k v] entries IH]; intros properties required Hname;
    [done|]; simpl in *.
  apply not_elem_of_cons in Hname as [Hk Hrest].
  rewrite IH by done. by rewrite lookup_insert_ne.
Qed.

(** Under a key of the mapping the properties hold the fragment of one of
    the values given for it (the last one). *)
Lemma parsePairs_lookup entries properties required name :
  name ∈ entryKeys entries →
  ∃ k v, (k, v) ∈ entries ∧ yaml.Value k = name ∧
         (parsePairs (yaml.mappingContent entries) properties required).1
           !! name = Some (Some (parseNode k v).1).
Proof.
  revert properties required. unfold entryKeys.
  induction entries as [|[k0 v0] entries IH];
    intros properties required Hin; simpl in *.
  - by apply elem_of_nil in Hin.
  - destruct (decide (name ∈ (λ kv, yaml.Value kv.1) <$> entries)) as [Hrest|Hrest].
    + destruct (IH (<[yaml.Value k0 := Some (parseNode k0 v0).1]> properties)
                  (if (parseNode k0 v0).2 then required ++ [yaml.Value k0]
                   else required) Hrest) as (k & v & Hkv & Hk & Hlookup).
      exists k, v. split; [by right|done].
    + apply elem_of_cons in Hin as [->|Hin]; [|done].
      exists k0, v0. split; [by left|]. split; [done|].
      rewrite parsePairs_lookup_other by done. by rewrite lookup_insert_eq.
Qed.

Lemma elem_of_requiredKeys entries name :
  name ∈ requiredKeys entries ↔
  ∃ k v, (k, v) ∈ entries ∧ yaml.Value k = name ∧
         yaml.isNull (yaml.NodeKind v) (yaml.Tag v) = false.
Proof.
  unfold requiredKeys, entryKeys. rewrite list_elem_of_fmap. split.
  - intros ([k v] & -> & [Hreq Hin]%list_elem_of_filter); simpl in *.
    exists k, v. rewrite parseNode_required in Hreq.
    by apply negb_true_iff in Hreq.
  - intros (k & v & Hin & <- & Hnull). exists (k, v). split; [done|].
    apply list_elem_of_filter. split; [|done]; simpl.
    by rewrite parseNode_required, Hnull.
Qed.

(** The first scenario of section 8: the fragment of
    [{name: "a", age: 5, tags: ["x"]}]. *)
Example parseNode_person :
  parseNode (Sample.key "person") (Sample.mapping Sample.person) =
  (mkSchema "object"
     {[ "name" := Some (typedSchema "string");
        "age" := Some (typedSchema "integer");
        "tags" := Some (mkSchema "array" ∅ (Some (typedSchema "string"))
                          [] "" "" "" None) ]}
     None ["name"; "age"; "tags"] "" "" "" None,
   true).
Proof. by vm_compute. Qed.

(** C2.  For a mapping with the given entries, the loop of lines 60-68 ends
    with properties and a required list such that: a name is in the list
    exactly when some entry has it as key with a value that is not null; an
    entry whose value is an explicit null (and whose key is given no other
    value) has a child fragment of type [null] and its key is not in the
    list.  [parseNode] on a mapping node with these entries builds the same
    properties and required list. *)
Theorem required_iff_non_null (entries : list (yaml.Node * yaml.Node)) :
  ∃ properties required,
    rootLoop (yaml.mappingContent entries) ∅ [] = Return (properties, required) ∧
    (∀ name, name ∈ required ↔
       ∃ k v, (k, v) ∈ entries ∧ yaml.Value k = name ∧
              yaml.isNull (yaml.NodeKind v) (yaml.Tag v) = false) ∧
    (∀ k v, (k, v) ∈ entries →
       yaml.isNull (yaml.NodeKind v) (yaml.Tag v) = true →
       (∀ k' v', (k', v') ∈ entries → yaml.Value k' = yaml.Value k → v' = v) →
       (yaml.Value k ∉ required) ∧
       ∃ child, properties !! yaml.Value k = Some (Some child) ∧
                Type_ child = "null") ∧
    (∀ keyNode tag value,
       (parseNode keyNode
          (yaml.mkNode yaml.MappingNode tag value (yaml.mappingContent entries))).1
       = mkSchema "object" properties None required "" "" "" None).
Proof.
  exists (parsePairs (yaml.mappingContent entries) ∅ []).1,
         (parsePairs (yaml.mappingContent entries) ∅ []).2.
  split; [|split; [|split]].
  - rewrite rootLoop_mappingContent. by destruct (parsePairs _ _ _).
  - intros name. rewrite parsePairs_required; simpl.
    apply elem_of_requiredKeys.
  - intros k v Hin Hnull Honly. split.
    + rewrite parsePairs_required; simpl.
      intros (k' & v' & Hin' & Hk & Hnull')%elem_of_requiredKeys.
      rewrite (Honly k' v' Hin' Hk) in Hnull'. congruence.
    + assert (yaml.Value k ∈ entryKeys entries) as Hkey.
      { apply list_elem_of_fmap. by exists (k, v). }
      destruct (parsePairs_lookup entries ∅ [] _ Hkey)
        as (k' & v' & Hin' & Hk & Hlookup).
      rewrite (Honly k' v' Hin' Hk) in Hlookup.
      exists (parseNode k' v).1. split; [done|]. by apply parseNode_null.
  - intros keyNode tag value. apply parseNode_mapping.
Qed.

Lemma required_iff_non_null_witness :
  ∃ properties required,
    rootLoop (yaml.mappingContent Sample.nameAndNote) ∅ []
      = Return (properties, required) ∧
    "name" ∈ required ∧ ("note" ∉ required) ∧
    ∃ child, properties !! "note" = Some (Some child) ∧ Type_ child = "null".
Proof.
  destruct (required_iff_non_null Sample.nameAndNote)
    as (properties & required & Hloop & Hreq & Hnull & _).
  assert (∀ k' v', (k', v') ∈ Sample.nameAndNote →
            yaml.Value k' = yaml.Value (Sample.key "note") →
            v' = Sample.scalar "!!null" "~") as Honly.
  { intros k' v' Hin Hk. unfold Sample.nameAndNote in Hin.
    apply elem_of_cons in Hin as [[= -> ->]|Hin]; [done|].
    apply elem_of_cons in Hin as [[= -> ->]|Hin]; [done|].
    by apply elem_of_nil in Hin. }
  destruct (Hnull (Sample.key "note") (Sample.scalar "!!null" "~"))
    as (Hnot & Hchild); [by repeat constructor|done|exact Honly|].
  exists properties, required. split; [done|]. split; [|by split].
  apply Hreq. exists (Sample.key "name"), (Sample.scalar "!!str" "web").
  split; [|done]. by repeat constructor.
Defined.

(** ** Deduplicated union of required lists *)

Lemma appendUnique_NoDup acc x : NoDup acc → NoDup (appendUnique acc x).
Proof.
  intros Hacc. unfold appendUnique. case_decide; [done|].
  apply NoDup_app. split; [done|]. split; [|apply NoDup_singleton].
  intros y Hy ->%list_elem_of_singleton. done.
Qed.

Lemma foldl_appendUnique_NoDup l acc :
  NoDup acc → NoDup (foldl appendUnique acc l).
Proof.
  revert acc. induction l as [|x l IH]; intros acc Hacc; simpl; [done|].
  by apply IH, appendUnique_NoDup.
Qed.

Lemma foldl_appendUnique_prefix l acc : acc `prefix_of` foldl appendUnique acc l.
Proof.
  revert acc. induction l as [|x l IH]; intros acc; simpl; [done|].
  etrans; [|apply IH]. unfold appendUnique.
  case_decide; [done|]. by apply prefix_app_r.
Qed.

Lemma elem_of_foldl_appendUnique l acc x :
  x ∈ foldl appendUnique acc l ↔ x ∈ acc ∨ x ∈ l.
Proof.
  revert acc. induction l as [|y l IH]; intros acc; simpl.
  - rewrite elem_of_nil. tauto.
  - rewrite IH, elem_of_cons. unfold appendUnique. case_decide as Hy.
    + split; [tauto|]. intros [?|[->|?]]; tauto.
    + rewrite elem_of_app, list_elem_of_singleton. tauto.
Qed.

Lemma foldl_appendUnique_absorb l acc :
  (∀ x, x ∈ l → x ∈ acc) → foldl appendUnique acc l = acc.
Proof.
  induction l as [|y l IH]; intros Hl; simpl; [done|].
  unfold appendUnique at 2. rewrite decide_True by (apply Hl; left).
  apply IH. intros x Hx. apply Hl. by right.
Qed.

Lemma dedupFirst_NoDup l : NoDup (dedupFirst l).
Proof. apply foldl_appendUnique_NoDup, NoDup_nil_2. Qed.

Lemma elem_of_dedupFirst l x : x ∈ dedupFirst l ↔ x ∈ l.
Proof.
  unfold dedupFirst. rewrite elem_of_foldl_appendUnique, elem_of_nil. tauto.
Qed.

Lemma dedupFirst_app a b :
  dedupFirst (a ++ b) = foldl appendUnique (dedupFirst a) b.
Proof. unfold dedupFirst. by rewrite foldl_app. Qed.

Lemma dedupFirst_id l : NoDup l → dedupFirst l = l.
Proof.
  induction l as [|x l IH] using rev_ind; intros Hl; [done|].
  apply NoDup_app in Hl as (Hl & Hx & _).
  rewrite dedupFirst_app, IH by done; simpl.
  unfold appendUnique. rewrite decide_False; [done|].
  intros Hin. apply (Hx x Hin). by left.
Qed.

Lemma dedupFirst_dedupFirst_app a b :
  dedupFirst (dedupFirst a ++ b) = dedupFirst (a ++ b).
Proof.
  rewrite !dedupFirst_app. f_equal. apply dedupFirst_id, dedupFirst_NoDup.
Qed.

Lemma dedupFirst_app_absorb a b :
  (∀ x, x ∈ b → x ∈ a) → dedupFirst (dedupFirst a ++ b) = dedupFirst a.
Proof.
  intros Hb. rewrite dedupFirst_dedupFirst_app, dedupFirst_app.
  apply foldl_appendUnique_absorb. intros x Hx.
  apply elem_of_dedupFirst. auto.
Qed.

Lemma uniqueStringAppend_NoDup dest src : NoDup (uniqueStringAppend dest src).
Proof. apply dedupFirst_NoDup. Qed.

(** ** One merge *)

Lemma isEmptySchema_true s : isEmptySchema s = true ↔ s = emptySchema.
Proof.
  unfold isEmptySchema. rewrite bool_decide_eq_true. split.
  - destruct s; simpl. intros (-> & -> & -> & -> & -> & -> & -> & ->). done.
  - by intros ->.
Qed.

Lemma mergeSchemas_unfold base incoming :
  mergeSchemas base incoming =
  if isEmptySchema base then incoming
  else if bool_decide (Type_ base = "object" ∧ Type_ incoming = "object") then
    mkSchema "object"
      (union_with
         (λ ob oi, Some match ob, oi with
                        | Some b, Some i => Some (mergeSchemas b i)
                        | None, _ => oi
                        | _, None => ob
                        end)
         (Properties base) (Properties incoming))
      (Items incoming)
      (uniqueStringAppend (Required base) (Required incoming))
      (Title incoming) (Description incoming) (ID incoming)
      (AdditionalProperties incoming)
  else incoming.
Proof. by destruct base. Qed.

(** The fields of the aggregate that a merge settles whatever the
    properties are. *)
Lemma mergeFile_fields config merged properties required :
  Type_ (mergeFile config merged properties required) = "object" ∧
  Title (mergeFile config merged properties required)
    = Cfg.Root.Title (Cfg.SchemaRoot config) ∧
  Description (mergeFile config merged properties required)
    = Cfg.Root.Description (Cfg.SchemaRoot config) ∧
  ID (mergeFile config merged properties required) = Cfg.Root.ID (Cfg.SchemaRoot config) ∧
  Required (mergeFile config merged properties required) =
    (if isEmptySchema merged then dedupFirst required
     else if bool_decide (Type_ merged = "object")
     then dedupFirst (Required merged ++ required)
     else dedupFirst required).
Proof.
  unfold mergeFile. rewrite mergeSchemas_unfold; simpl.
  assert (dedupFirst (required ++ required) = dedupFirst required) as Hself.
  { rewrite dedupFirst_app. apply foldl_appendUnique_absorb.
    intros x Hx. by apply elem_of_dedupFirst. }
  destruct (isEmptySchema merged); simpl; [done|].
  destruct (decide (Type_ merged = "object")) as [Hty|Hty].
  - rewrite !bool_decide_eq_true_2 by done; simpl.
    repeat split; try done. unfold uniqueStringAppend.
    apply dedupFirst_app_absorb. intros x Hx. apply elem_of_app. by right.
  - rewrite !bool_decide_eq_false_2 by tauto; simpl. done.
Qed.

(** ** Sequences of merges *)

(** After at least one merge the aggregate is a non-empty object carrying
    the configured metadata, and its required list is the deduplicated
    concatenation of the required lists merged so far. *)
Lemma mergeAll_snoc config merged files file :
  mergeAll config merged (files ++ [file]) =
  mergeFile config (mergeAll config merged files) file.1 file.2.
Proof. unfold mergeAll. by rewrite foldl_app. Qed.

Lemma mergeFile_not_empty config merged properties required :
  isEmptySchema (mergeFile config merged properties required) = false.
Proof.
  apply not_true_is_false. intros Hempty%isEmptySchema_true.
  pose proof (mergeFile_fields config merged properties required) as [Hty _].
  by rewrite Hempty in Hty.
Qed.

Lemma mergeAll_required config files :
  Required (mergeAll config emptySchema files) = dedupFirst (concat files.*2).
Proof.
  induction files as [|[properties required] files IH] using rev_ind; [done|].
  rewrite mergeAll_snoc.
  replace (concat (files ++ [(properties, required)]).*2)
    with (concat files.*2 ++ required)
    by (rewrite fmap_app, concat_app; simpl; by rewrite app_nil_r).
  change (properties, required).1 with properties.
  change (properties, required).2 with required.
  pose proof (mergeFile_fields config (mergeAll config emptySchema files)
                properties required) as (_ & _ & _ & _ & ->).
  destruct files as [|file files _] using rev_ind; [done|].
  rewrite mergeAll_snoc in IH |- *. rewrite mergeFile_not_empty.
  pose proof (mergeFile_fields config (mergeAll config emptySchema files)
                file.1 file.2) as (Hty & _).
  rewrite bool_decide_eq_true_2 by done.
  rewrite IH. apply dedupFirst_dedupFirst_app.
Qed.

Lemma mergeAll_metadata config files :
  files ≠ [] →
  let merged := mergeAll config emptySchema files in
  Type_ merged = "object" ∧
  Title merged = Cfg.Root.Title (Cfg.SchemaRoot config) ∧
  Description merged = Cfg.Root.Description (Cfg.SchemaRoot config) ∧
  ID merged = Cfg.Root.ID (Cfg.SchemaRoot config).
Proof.
  destruct files as [|file files _] using rev_ind; [done|]. intros _; simpl.
  rewrite mergeAll_snoc.
  pose proof (mergeFile_fields config (mergeAll config emptySchema files)
                file.1 file.2) as (? & ? & ? & ? & _).
  done.
Qed.

(** The second scenario of section 8: [{id: 1}] then [{name: "x"}]. *)
Example mergeAll_id_name :
  ∃ idProps nameProps,
    rootLoop (yaml.mappingContent Sample.idOnly) ∅ [] = Return (idProps, ["id"]) ∧
    rootLoop (yaml.mappingContent Sample.nameOnly) ∅ []
      = Return (nameProps, ["name"]) ∧
    mergeAll (Sample.configOf [] 2) emptySchema
      [(idProps, ["id"]); (nameProps, ["name"])] =
    mkSchema "object"
      {[ "id" := Some (typedSchema "integer");
         "name" := Some (typedSchema "string") ]}
      None ["id"; "name"] "Values" "" "" None.
Proof. eexists _, _. repeat split; vm_compute; reflexivity. Qed.

(** ** The loop over the input files *)

Lemma bind_unfold {A B} (f : A → M B) (m : M A) :
  m ≫= f =
  match m.2 with
  | Return a => (m.1 ++ (f a).1, (f a).2)
  | Raise e => (m.1, Raise e)
  | Panic => (m.1, Panic)
  end.
Proof. reflexivity. Qed.

Section Loop.
  Context (w : World) (config : Cfg.Config).

Lemma processFile_unfold merged filePath :
  processFile w config merged filePath =
  ((inferFile w filePath).1,
   match (inferFile w filePath).2 with
   | Return None => Return merged
   | Return (Some file) => Return (mergeFile config merged file.1 file.2)
   | Raise e => Raise e
   | Panic => Panic
   end).
Proof.
  unfold processFile. rewrite bind_unfold.
  destruct (inferFile w filePath) as [tr [[[properties required]|]|e|]];
    simpl; by rewrite ?app_nil_r.
Qed.

Lemma processFiles_cons filePath rest merged :
  processFiles w config (filePath :: rest) merged =
  match (processFile w config merged filePath).2 with
  | Return merged' =>
      ((processFile w config merged filePath).1
         ++ (processFiles w config rest merged').1,
       (processFiles w config rest merged').2)
  | Raise e => ((processFile w config merged filePath).1, Raise e)
  | Panic => ((processFile w config merged filePath).1, Panic)
  end.
Proof. reflexivity. Qed.

Lemma processFiles_mergeAll input merged tr merged' :
  processFiles w config input merged = (tr, Return merged') →
  merged' = mergeAll config merged (contributions w input).
Proof.
  revert merged tr. unfold contributions.
  induction input as [|filePath rest IH]; intros merged tr; simpl.
  - by intros [= _ ->].
  - change (processFiles w config (filePath :: rest) merged = (tr, Return merged')
            → merged' = mergeAll config merged
                (omap (fileContribution w) (filePath :: rest))).
    rewrite processFiles_cons, processFile_unfold; simpl.
    unfold fileContribution at 1.
    destruct (inferFile w filePath) as [tr1 [[file|]|e|]]; simpl; try done.
    + destruct (processFiles w config rest (mergeFile config merged file.1 file.2))
        as [tr2 o] eqn:Hrest; simpl.
      intros [= _ ->]. by apply IH in Hrest.
    + destruct (processFiles w config rest merged) as [tr2 o] eqn:Hrest; simpl.
      intros [= _ ->]. by apply IH in Hrest.
Qed.

(** The aggregate is an object as soon as one file has contributed, and is
    still the empty fragment when none has. *)
Lemma processFiles_type input tr merged :
  processFiles w config input emptySchema = (tr, Return merged) →
  if decide (contributions w input = []) then merged = emptySchema
  else Type_ merged = "object".
Proof.
  intros ->%processFiles_mergeAll. case_decide as Hfiles.
  - by rewrite Hfiles.
  - by destruct (mergeAll_metadata config _ Hfiles) as (? & _).
Qed.

End Loop.

(** C5.  When the loop over the input files has gone through, the
    aggregate's [required] list has no duplicates and is the list of the
    required keys of the contributing files, in file order, each name at
    its first occurrence; going through further files only appends to it. *)
Theorem required_first_seen (w : World) (config : Cfg.Config)
    (input : list string) (tr : list Event) (merged : Schema) :
  processFiles w config input emptySchema = (tr, Return merged) →
  NoDup (Required merged) ∧
  Required merged = dedupFirst (concat (contributions w input).*2) ∧
  (∀ more tr' merged',
     processFiles w config (input ++ more) emptySchema = (tr', Return merged') →
     Required merged `prefix_of` Required merged').
Proof.
  intros ->%processFiles_mergeAll. rewrite mergeAll_required.
  split; [apply dedupFirst_NoDup|]. split; [done|].
  intros more tr' merged' ->%processFiles_mergeAll.
  rewrite mergeAll_required. unfold contributions.
  rewrite omap_app, fmap_app, concat_app, dedupFirst_app.
  apply foldl_appendUnique_prefix.
Qed.

Lemma required_first_seen_witness :
  ∃ tr merged,
    processFiles Sample.world (Sample.configOf [] 4)
      ["servers.yaml"; "empty.yaml"; "name.yaml"; "servers.yaml"] emptySchema
      = (tr, Return merged) ∧
    NoDup (Required merged) ∧ Required merged = ["servers"; "name"].
Proof.
  eexists _, _. split; [vm_compute; reflexivity|].
  edestruct (required_first_seen Sample.world (Sample.configOf [] 4)
               ["servers.yaml"; "empty.yaml"; "name.yaml"; "servers.yaml"])
    as (Hnodup & Heq & _); [vm_compute; reflexivity|].
  split; [exact Hnodup|]. rewrite Heq. vm_compute. reflexivity.
Defined.

(** C4, as far as it holds.  When at least one input file has contributed,
    the aggregate's [title], [description] and [id] are the configured
    ones; and the first merge, into the empty aggregate, gives the incoming
    fragment: an object with the file's properties, its required keys and
    the configured metadata. *)
Theorem metadata_from_configuration (w : World) (config : Cfg.Config)
    (input : list string) (tr : list Event) (merged : Schema) :
  processFiles w config input emptySchema = (tr, Return merged) →
  contributions w input ≠ [] →
  Title merged = Cfg.Root.Title (Cfg.SchemaRoot config) ∧
  Description merged = Cfg.Root.Description (Cfg.SchemaRoot config) ∧
  ID merged = Cfg.Root.ID (Cfg.SchemaRoot config) ∧
  (∀ properties required,
     mergeFile config emptySchema properties required =
     mkSchema "object" properties None (dedupFirst required)
       (Cfg.Root.Title (Cfg.SchemaRoot config)) (Cfg.Root.Description (Cfg.SchemaRoot config))
       (Cfg.Root.ID (Cfg.SchemaRoot config)) None).
Proof.
  intros ->%processFiles_mergeAll Hfiles.
  destruct (mergeAll_metadata config _ Hfiles) as (_ & ? & ? & ?).
  repeat split; try done.
  intros properties required. unfold mergeFile, setRequired; simpl.
  f_equal. unfold uniqueStringAppend. rewrite dedupFirst_app.
  apply foldl_appendUnique_absorb. intros x Hx. by apply elem_of_dedupFirst.
Qed.

Lemma metadata_from_configuration_witness :
  ∃ tr merged,
    processFiles Sample.world (Sample.configOf [] 4)
      ["empty.yaml"; "name.yaml"] emptySchema = (tr, Return merged) ∧
    contributions Sample.world ["empty.yaml"; "name.yaml"] ≠ [] ∧
    Title merged = "Values".
Proof.
  eexists _, _. split; [vm_compute; reflexivity|].
  assert (contributions Sample.world ["empty.yaml"; "name.yaml"] ≠ []) as Hfiles
    by (vm_compute; discriminate).
  split; [exact Hfiles|].
  edestruct (metadata_from_configuration Sample.world (Sample.configOf [] 4)
               ["empty.yaml"; "name.yaml"]) as (Htitle & _);
    [vm_compute; reflexivity|exact Hfiles|].
  exact Htitle.
Defined.

(** C4 as stated fails on a run whose only input file is empty: the run
    succeeds, the aggregate is still the empty fragment, and its title is
    not the configured one. *)
Lemma metadata_missing_when_all_empty :
  (GenerateJsonSchema Sample.world (Sample.configOf ["empty.yaml"] 4)).2
    = Return tt ∧
  ∃ tr merged,
    processFiles Sample.world (Sample.configOf ["empty.yaml"] 4)
      (Cfg.Input (Sample.configOf ["empty.yaml"] 4)) emptySchema
      = (tr, Return merged) ∧
    Cfg.Root.Title (Cfg.SchemaRoot (Sample.configOf ["empty.yaml"] 4)) = "Values" ∧
    Title merged = "" ∧
    Title merged ≠ Cfg.Root.Title (Cfg.SchemaRoot (Sample.configOf ["empty.yaml"] 4)).
Proof.
  split; [by vm_compute|].
  exists [EvReadFile "empty.yaml"], emptySchema.
  split; [by vm_compute|]. by repeat split.
Qed.

(** C6.  A file that is read and parsed and whose document has no content
    leaves the aggregate as it was and raises no error: the loop goes on
    with the remaining files from the same aggregate. *)
Theorem empty_document_skipped (w : World) (config : Cfg.Config)
    (merged : Schema) (filePath : string) (rest : list string)
    (tr : list Event) (content : list byte) (node : yaml.Node) :
  getFileContent w filePath = (tr, Return content) →
  yaml_Unmarshal w content = Ok node →
  yaml.Content node = [] →
  processFile w config merged filePath = (tr, Return merged) ∧
  processFiles w config (filePath :: rest) merged =
    (tr ++ (processFiles w config rest merged).1,
     (processFiles w config rest merged).2).
Proof.
  intros Hread Hparse Hempty.
  assert (inferFile w filePath = (tr, Return None)) as Hinfer.
  { unfold inferFile. rewrite Hread; simpl. rewrite !bind_unfold; simpl.
    rewrite Hparse; simpl. rewrite Hempty; simpl. by rewrite !app_nil_r. }
  assert (processFile w config merged filePath = (tr, Return merged)) as Hfile.
  { by rewrite processFile_unfold, Hinfer. }
  split; [done|]. by rewrite processFiles_cons, Hfile.
Qed.

Lemma empty_document_skipped_witness :
  getFileContent Sample.world "empty.yaml" = ([EvReadFile "empty.yaml"], Return []) ∧
  yaml_Unmarshal Sample.world [] = Ok yaml.zeroNode ∧
  yaml.Content yaml.zeroNode = [] ∧
  processFile Sample.world (Sample.configOf [] 4) Sample.serversSchema "empty.yaml"
    = ([EvReadFile "empty.yaml"], Return Sample.serversSchema).
Proof.
  split; [reflexivity|]. split; [reflexivity|]. split; [reflexivity|].
  apply (empty_document_skipped Sample.world (Sample.configOf [] 4)
           Sample.serversSchema "empty.yaml" [] [EvReadFile "empty.yaml"] []
           yaml.zeroNode); reflexivity.
Defined.

(** ** The two [additionalProperties] policies *)

Lemma applyAdditionalProperties_ext p1 p2 config merged :
  (∀ s value, p1 s value = p2 s value) →
  applyAdditionalProperties p1 config merged
  = applyAdditionalProperties p2 config merged.
Proof.
  intros Hp. unfold applyAdditionalProperties.
  by destruct (Cfg.IsSet (Cfg.All.AdditionalProperties (Cfg.SchemaAll config))).
Qed.

(** C3, as far as it holds.  With both policies configured, the root-only
    value is stored first and [setAdditionalProperties] runs second, on the
    fragment that already holds it.  When the merged fragment is an object,
    its final [AdditionalProperties] is the value of the policy for all
    levels; when it is not, the call does not touch the root and the
    root-only value stays. *)
Theorem all_levels_policy_after_root (config : Cfg.Config) (merged : Schema) :
  Cfg.IsSet (Cfg.Root.AdditionalProperties (Cfg.SchemaRoot config)) = true →
  Cfg.IsSet (Cfg.All.AdditionalProperties (Cfg.SchemaAll config)) = true →
  let rootValue := Cfg.Value (Cfg.Root.AdditionalProperties (Cfg.SchemaRoot config)) in
  let allValue := Cfg.Value (Cfg.All.AdditionalProperties (Cfg.SchemaAll config)) in
  let final := applyAdditionalProperties setAdditionalProperties config merged in
  final = setAdditionalProperties (setAdditional merged (Some rootValue)) allValue ∧
  (Type_ merged = "object" → AdditionalProperties final = Some allValue) ∧
  (Type_ merged ≠ "object" → AdditionalProperties final = Some rootValue).
Proof.
  intros Hroot Hall rootValue allValue final.
  assert (final = setAdditionalProperties
                    (setAdditional merged (Some rootValue)) allValue) as ->.
  { unfold final, applyAdditionalProperties. by rewrite Hroot, Hall. }
  split; [done|]. split; intros Hty.
  - by apply setAdditionalProperties_root_object.
  - by rewrite setAdditionalProperties_root_other.
Qed.

Lemma all_levels_policy_after_root_witness :
  Cfg.IsSet (Cfg.Root.AdditionalProperties (Cfg.SchemaRoot (Sample.configOf [] 4))) = true ∧
  Cfg.IsSet (Cfg.All.AdditionalProperties (Cfg.SchemaAll (Sample.configOf [] 4))) = true ∧
  Type_ Sample.serversSchema = "object" ∧
  AdditionalProperties
    (applyAdditionalProperties setAdditionalProperties
       (Sample.configOf [] 4) Sample.serversSchema) = Some false.
Proof.
  split; [reflexivity|]. split; [reflexivity|]. split; [reflexivity|].
  apply (all_levels_policy_after_root (Sample.configOf [] 4)
           Sample.serversSchema); reflexivity.
Defined.

(** C3 as stated fails on a run whose only input file is empty: both
    policies are configured, root-only [true] and all levels [false]; the
    run succeeds, the aggregate it applies them to is the empty fragment,
    and the root ends with [true]. *)
Lemma all_levels_policy_skips_empty_root :
  Cfg.Root.AdditionalProperties (Cfg.SchemaRoot (Sample.configOf ["empty.yaml"] 4))
    = Cfg.mkBoolFlag true true ∧
  Cfg.All.AdditionalProperties (Cfg.SchemaAll (Sample.configOf ["empty.yaml"] 4))
    = Cfg.mkBoolFlag true false ∧
  (GenerateJsonSchema Sample.world (Sample.configOf ["empty.yaml"] 4)).2
    = Return tt ∧
  (processFiles Sample.world (Sample.configOf ["empty.yaml"] 4)
     (Cfg.Input (Sample.configOf ["empty.yaml"] 4)) emptySchema).2
    = Return emptySchema ∧
  AdditionalProperties
    (applyAdditionalProperties setAdditionalProperties
       (Sample.configOf ["empty.yaml"] 4) emptySchema) = Some true ∧
  AdditionalProperties
    (applyAdditionalProperties setAdditionalProperties
       (Sample.configOf ["empty.yaml"] 4) emptySchema)
  ≠ Some (Cfg.Value (Cfg.All.AdditionalProperties
                       (Cfg.SchemaAll (Sample.configOf ["empty.yaml"] 4)))).
Proof. repeat split; by vm_compute. Qed.

(** ** Configuration errors *)

(** C7.  With no input, an indentation that is not positive or is odd, or a
    draft that [getSchemaURL] rejects, [GenerateJsonSchema] returns an
    error having done nothing: no file was read and none was written.  The
    error is one of the three of lines 19, 30 and 33, or the one
    [getSchemaURL] gave. *)
Theorem configuration_error_first (w : World) (config : Cfg.Config) :
  Cfg.Input config = [] ∨ (Cfg.Indent config ≤ 0)%Z ∨
  Z.odd (Cfg.Indent config) = true ∨
  (∃ e, getSchemaURL w (Cfg.Draft config) = Err e) →
  ∃ e, GenerateJsonSchema w config = ([], Raise e) ∧
       (e = "input flag is required" ∨
        getSchemaURL w (Cfg.Draft config) = Err e ∨
        e = "indentation must be a positive number" ∨
        e = "indentation must be an even number").
Proof.
  intros Hbad. unfold GenerateJsonSchema, GenerateJsonSchema_with.
  case_decide as Hinput; [by eauto|].
  rewrite bind_unfold.
  destruct (getSchemaURL w (Cfg.Draft config)) as [url|e] eqn:Hurl; simpl;
    [|by eauto].
  case_decide as Hpos; [by eauto 6|].
  case_decide as Hodd; [by eauto 6|].
  exfalso. destruct Hbad as [Hnil|[Hle|[Hodd'|[e He]]]]; try done.
  - by rewrite Hnil in Hinput.
  - rewrite Zodd_rem in Hodd'. by rewrite Hodd in Hodd'.
Qed.

Lemma configuration_error_first_witness :
  Z.odd (Cfg.Indent (Sample.configOf ["name.yaml"] 3)) = true ∧
  ∃ e, GenerateJsonSchema Sample.world (Sample.configOf ["name.yaml"] 3)
       = ([], Raise e).
Proof.
  split; [reflexivity|].
  destruct (configuration_error_first Sample.world
              (Sample.configOf ["name.yaml"] 3)) as (e & He & _);
    [right; right; left; reflexivity|].
  exists e. exact He.
Defined.

(** ** Input errors *)

Lemma wroteOutput_app tr1 tr2 :
  wroteOutput (tr1 ++ tr2) = wroteOutput tr1 || wroteOutput tr2.
Proof. apply existsb_app. Qed.

Section InputErrors.
  Context (w : World) (config : Cfg.Config).

Lemma getFileContent_trace filePath :
  wroteOutput (getFileContent w filePath).1 = false.
Proof.
  unfold getFileContent, downloadFile.
  destruct (isURL filePath); rewrite !bind_unfold; simpl.
  - destruct (http_Get w filePath) as [resp|e]; simpl; [|done].
    case_decide; simpl; [done|]. by destruct (Body resp).
  - by destruct (os_ReadFile w filePath).
Qed.

Lemma getFileContent_no_panic filePath :
  (getFileContent w filePath).2 ≠ Panic.
Proof.
  unfold getFileContent, downloadFile.
  destruct (isURL filePath); rewrite !bind_unfold; simpl.
  - destruct (http_Get w filePath) as [resp|e]; simpl; [|done].
    case_decide; simpl; [done|]. by destruct (Body resp).
  - by destruct (os_ReadFile w filePath).
Qed.

Lemma inferFile_trace filePath :
  (inferFile w filePath).1 = (getFileContent w filePath).1.
Proof.
  unfold inferFile. rewrite bind_unfold. unfold orFail at 1 2 3.
  destruct (getFileContent w filePath) as [tr [content|e|]]; simpl; try done.
  rewrite bind_unfold.
  destruct (yaml_Unmarshal w content) as [node|e]; simpl;
    [|by rewrite app_nil_r].
  destruct (yaml.Content node) as [|rootNode rest]; simpl;
    [by rewrite app_nil_r|].
  rewrite bind_unfold; simpl.
  destruct (rootLoop _ _ _); simpl; by rewrite ?app_nil_r.
Qed.

Lemma inferFile_fails filePath :
  fileFails w filePath →
  ∃ e, (inferFile w filePath).2 = Raise e ∧ e ∈ inputErrors.
Proof.
  unfold inferFile, inputErrors.
  intros [(tr & e & Hread)|(tr & content & e & Hread & Hparse)];
    rewrite bind_unfold, Hread; simpl.
  - eexists. split; [done|]. by left.
  - rewrite bind_unfold, Hparse; simpl. eexists. split; [done|].
    right. by left.
Qed.

Lemma processFiles_trace input merged :
  wroteOutput (processFiles w config input merged).1 = false.
Proof.
  revert merged. induction input as [|filePath rest IH]; intros merged; [done|].
  rewrite processFiles_cons, processFile_unfold; simpl.
  pose proof (getFileContent_trace filePath) as Hread.
  rewrite <-inferFile_trace in Hread.
  destruct (inferFile w filePath).2 as [[file|]|e|]; simpl; try done;
    by rewrite wroteOutput_app, Hread, IH.
Qed.

(** The loop stops at the first file that fails, whatever follows it. *)
Lemma processFiles_first_failure pre filePath post merged tr0 merged0 :
  processFiles w config pre merged = (tr0, Return merged0) →
  fileFails w filePath →
  ∃ e, processFiles w config (pre ++ filePath :: post) merged
       = (tr0 ++ (getFileContent w filePath).1, Raise e) ∧
       e ∈ inputErrors.
Proof.
  intros Hpre Hfails. revert merged tr0 Hpre.
  induction pre as [|p pre IH]; intros merged tr0.
  - intros [= <- <-]. destruct (inferFile_fails _ Hfails) as (e & He & Hin).
    exists e. split; [|done].
    change (processFiles w config (filePath :: post) merged
            = ((getFileContent w filePath).1, Raise e)).
    by rewrite processFiles_cons, processFile_unfold, He, <-inferFile_trace.
  - change (processFiles w config (p :: pre) merged = (tr0, Return merged0) →
            ∃ e, processFiles w config (p :: (pre ++ filePath :: post)) merged
                 = (tr0 ++ (getFileContent w filePath).1, Raise e)
                 ∧ e ∈ inputErrors).
    rewrite !processFiles_cons.
    destruct (processFile w config merged p) as [tr1 [merged1|e|]]; simpl;
      try done.
    destruct (processFiles w config pre merged1) as [tr2 o] eqn:Hrest; simpl.
    intros [= <- ->]. destruct (IH _ _ Hrest) as (e & -> & Hin); simpl.
    exists e. by rewrite app_assoc.
Qed.

(** The loop does not go through when some file of the list fails. *)
Lemma processFiles_fails input filePath merged merged' :
  filePath ∈ input → fileFails w filePath →
  (processFiles w config input merged).2 ≠ Return merged'.
Proof.
  intros Hin Hfails. revert merged.
  induction input as [|p rest IH]; intros merged;
    [by apply elem_of_nil in Hin|].
  rewrite processFiles_cons, processFile_unfold; simpl.
  apply elem_of_cons in Hin as [<-|Hin].
  - by destruct (inferFile_fails _ Hfails) as (e & -> & _).
  - destruct (inferFile w p).2 as [[file|]|e|]; simpl; try done; by apply IH.
Qed.

End InputErrors.

(** C8, as far as it holds.  When a file of the input list cannot be read
    or is not YAML, the run does not succeed and writes no output.  When
    the configuration is valid and the files before it went through, the
    run returns, right after the attempt to read that file, one of the two
    fixed errors of lines 44 and 49. *)
Theorem input_error_aborts (w : World) (config : Cfg.Config)
    (pre : list string) (filePath : string) (post : list string) :
  Cfg.Input config = pre ++ filePath :: post →
  fileFails w filePath →
  (GenerateJsonSchema w config).2 ≠ Return tt ∧
  wroteOutput (GenerateJsonSchema w config).1 = false ∧
  (∀ url tr0 merged,
     getSchemaURL w (Cfg.Draft config) = Ok url →
     (0 < Cfg.Indent config)%Z → Z.even (Cfg.Indent config) = true →
     processFiles w config pre emptySchema = (tr0, Return merged) →
     ∃ e, GenerateJsonSchema w config
          = (tr0 ++ (getFileContent w filePath).1, Raise e) ∧
          e ∈ inputErrors).
Proof.
  intros Hinput Hfails.
  assert (filePath ∈ Cfg.Input config) as Hin.
  { rewrite Hinput, elem_of_app, elem_of_cons. auto. }
  unfold GenerateJsonSchema, GenerateJsonSchema_with.
  case_decide as Hlen; [by rewrite Hinput, length_app in Hlen; simpl in Hlen; lia|].
  rewrite bind_unfold.
  destruct (getSchemaURL w (Cfg.Draft config)) as [url|e] eqn:Hurl; simpl;
    [|done].
  case_decide as Hpos; [split; [done|]; split; [done|]; intros; lia|].
  case_decide as Hodd.
  { split; [done|]. split; [done|]. intros ? ? ? _ _ Heven _.
    rewrite Zeven_rem in Heven. by apply Z.eqb_eq in Heven. }
  rewrite bind_unfold.
  pose proof (processFiles_trace w config (Cfg.Input config) emptySchema) as Htr.
  pose proof (λ merged', processFiles_fails w config (Cfg.Input config)
                           filePath emptySchema merged' Hin Hfails) as Hnot.
  split; [|split].
  - destruct (processFiles w config (Cfg.Input config) emptySchema).2
      as [merged'| |]; simpl; try done. by destruct (Hnot merged').
  - destruct (processFiles w config (Cfg.Input config) emptySchema)
      as [tr [merged'| |]]; simpl in *; try done. by destruct (Hnot merged').
  - intros url' tr0 merged _ _ _ Hpre.
    destruct (processFiles_first_failure w config pre filePath post
                emptySchema tr0 merged Hpre Hfails) as (e & Hrun & He).
    exists e. split; [|done]. rewrite Hinput, Hrun. done.
Qed.

Lemma input_error_aborts_witness :
  fileFails Sample.world "missing.yaml" ∧
  (GenerateJsonSchema Sample.world
     (Sample.configOf ["name.yaml"; "missing.yaml"; "servers.yaml"] 4)).2
    ≠ Return tt ∧
  wroteOutput
    (GenerateJsonSchema Sample.world
       (Sample.configOf ["name.yaml"; "missing.yaml"; "servers.yaml"] 4)).1
    = false ∧
  ∃ e, GenerateJsonSchema Sample.world
         (Sample.configOf ["name.yaml"; "missing.yaml"; "servers.yaml"] 4)
       = ([EvReadFile "name.yaml"] ++ [EvReadFile "missing.yaml"], Raise e) ∧
       e ∈ inputErrors.
Proof.
  assert (fileFails Sample.world "missing.yaml") as Hfails.
  { left. eexists _, _. vm_compute. reflexivity. }
  split; [exact Hfails|].
  destruct (input_error_aborts Sample.world
              (Sample.configOf ["name.yaml"; "missing.yaml"; "servers.yaml"] 4)
              ["name.yaml"] "missing.yaml" ["servers.yaml"] eq_refl Hfails)
    as (Hnot & Hquiet & Herr).
  split; [exact Hnot|]. split; [exact Hquiet|].
  edestruct Herr as (e & Hrun & He);
    [reflexivity|reflexivity|reflexivity|vm_compute; reflexivity|].
  exists e. split; [exact Hrun|exact He].
Defined.

(** C8 as stated fails: the error of a run that stops at a missing file, or
    at a file that is not YAML, does not contain the name of the file.  The
    error the file system or the parser gave is dropped. *)
Lemma input_error_does_not_name_file :
  os_ReadFile Sample.world "missing.yaml"
    = Err "open missing.yaml: no such file or directory" ∧
  GenerateJsonSchema Sample.world (Sample.configOf ["missing.yaml"] 4)
    = ([EvReadFile "missing.yaml"], Raise "error reading YAML file(s)") ∧
  mentions "missing.yaml" "error reading YAML file(s)" = false ∧
  GenerateJsonSchema Sample.world (Sample.configOf ["broken.yaml"] 4)
    = ([EvReadFile "broken.yaml"], Raise "error unmarshaling YAML") ∧
  mentions "broken.yaml" "error unmarshaling YAML" = false.
Proof. repeat split; by vm_compute. Qed.

(** ** Iteration order does not matter *)

Lemma visitFold_lookup_other f order m k :
  k ∉ order.*1 → visitFold f order m !! k = m !! k.
Proof.
  revert m. unfold visitFold.
  induction order as [|[k' ov] order IH]; intros m Hk; [done|]; simpl in *.
  apply not_elem_of_cons in Hk as [Hne Hk]. rewrite IH by done.
  destruct ov as [v|]; simpl; [|done]. by rewrite lookup_insert_ne.
Qed.

Lemma visitFold_lookup f order m k ov :
  NoDup order.*1 → (k, ov) ∈ order → m !! k = Some ov →
  visitFold f order m !! k = Some (f <$> ov).
Proof.
  revert m.
  induction order as [|[k' ov'] order IH]; intros m Hkeys Hin Hm; simpl in *.
  - by apply elem_of_nil in Hin.
  - apply NoDup_cons in Hkeys as [Hfresh Hkeys].
    apply elem_of_cons in Hin as [[= <- <-]|Hin].
    + change (visitFold f order
                match ov with
                | Some v => <[k := Some (f v)]> m
                | None => m
                end !! k = Some (f <$> ov)).
      rewrite visitFold_lookup_other by done.
      destruct ov as [v|]; simpl; [by rewrite lookup_insert_eq|done].
    + assert (k ≠ k') as Hne.
      { intros ->. apply Hfresh, list_elem_of_fmap. by exists (k', ov). }
      apply IH; [done..|].
      destruct ov' as [v'|]; simpl; [|done]. by rewrite lookup_insert_ne.
Qed.

Lemma visitFold_all f order m :
  order ≡ₚ map_to_list m → visitFold f order m = rangeChildren f m.
Proof.
  intros Horder. apply map_eq. intros k. rewrite rangeChildren_lookup.
  assert (NoDup order.*1) as Hkeys.
  { rewrite Horder. apply NoDup_fst_map_to_list. }
  destruct (m !! k) as [ov|] eqn:Hk; simpl.
  - apply visitFold_lookup; [done| |done].
    rewrite Horder. by apply elem_of_map_to_list.
  - rewrite visitFold_lookup_other; [done|].
    intros ([k' ov] & -> & Hin)%list_elem_of_fmap; simpl in *.
    rewrite Horder in Hin. apply elem_of_map_to_list in Hin. congruence.
Qed.

Lemma rangeVisit_visitFold call f order m m' :
  (∀ k v v', (k, Some v) ∈ order → call v v' → v' = f v) →
  rangeVisit call order m m' → m' = visitFold f order m.
Proof.
  intros Hcall Hvisit.
  induction Hvisit as [m|k order m m' _ IH|k v v' order m m' Hv _ IH].
  - done.
  - apply IH. intros k' v v' Hin. apply (Hcall k'). by right.
  - simpl. rewrite (Hcall k v v') in IH by (done || left).
    apply IH. intros k' w w' Hin. apply (Hcall k'). by right.
Qed.

Lemma rangeVisit_intro call f order m :
  (∀ k v, (k, Some v) ∈ order → call v (f v)) →
  rangeVisit call order m (visitFold f order m).
Proof.
  revert m. induction order as [|[k [v|]] order IH]; intros m Hcall; simpl.
  - constructor.
  - eapply rangeVisit_call; [apply (Hcall k); left|].
    apply IH. intros k' w Hin. apply (Hcall k'). by right.
  - apply rangeVisit_nil, IH. intros k' w Hin. apply (Hcall k'). by right.
Qed.

Lemma elem_of_order_lookup order (m : gmap string (option Schema)) k ov :
  order ≡ₚ map_to_list m → (k, ov) ∈ order → m !! k = Some ov.
Proof. intros -> Hin. by apply elem_of_map_to_list. Qed.

(** Every execution of the propagator ends in the tree the function
    computes. *)
Lemma setAdditionalProperties_run_unique value s s' :
  setAdditionalProperties_run value s s' → s' = setAdditionalProperties s value.
Proof.
  revert s'. induction s as [s IH] using Schema_size_ind. intros s' Hrun.
  destruct Hrun as [s order props' items' Horder Hprops Hitems].
  rewrite setAdditionalProperties_unfold. f_equal.
  - apply (rangeVisit_visitFold _ (λ v, setAdditionalProperties v value)) in Hprops.
    + by rewrite Hprops, visitFold_all.
    + intros k v v' Hin Hv. apply IH; [|done].
      eapply schemaSize_child, elem_of_order_lookup; done.
  - destruct (Items s) as [it|] eqn:Hit;
      inversion Hitems as [|it' iorder iprops' Hiorder Hiprops]; subst; [|done].
    simpl. f_equal. unfold setItemsProperties, setProperties. f_equal.
    apply (rangeVisit_visitFold _ (λ v, setAdditionalProperties v value)) in Hiprops.
    + by rewrite Hiprops, visitFold_all.
    + intros k v v' Hin Hv. apply IH; [|done].
      etrans; [|by apply schemaSize_items].
      eapply schemaSize_child, elem_of_order_lookup; done.
Qed.

(** The function is one of the executions. *)
Lemma setAdditionalProperties_run_exists value s :
  setAdditionalProperties_run value s (setAdditionalProperties s value).
Proof.
  induction s as [s IH] using Schema_size_ind.
  rewrite setAdditionalProperties_unfold.
  apply (setAdditionalProperties_exec value s (map_to_list (Properties s))).
  - done.
  - rewrite <-(visitFold_all _ (map_to_list (Properties s))) by done.
    apply rangeVisit_intro. intros k v Hin%elem_of_map_to_list.
    apply IH. by eapply schemaSize_child.
  - destruct (Items s) as [it|] eqn:Hit; simpl; [|constructor].
    change (setItemsProperties value it)
      with (setProperties it
              (rangeChildren (λ v, setAdditionalProperties v value)
                 (Properties it))).
    apply (itemsVisit_some _ it (map_to_list (Properties it))); [done|].
    rewrite <-(visitFold_all _ (map_to_list (Properties it))) by done.
    apply rangeVisit_intro. intros k v Hin%elem_of_map_to_list.
    apply IH. etrans; [by eapply schemaSize_child|by apply schemaSize_items].
Qed.

Lemma GenerateJsonSchema_with_ext p1 p2 w config :
  (∀ s value, p1 s value = p2 s value) →
  GenerateJsonSchema_with p1 w config = GenerateJsonSchema_with p2 w config.
Proof.
  intros Hp. unfold GenerateJsonSchema_with.
  case_decide; [done|]. rewrite !bind_unfold.
  destruct (getSchemaURL w (Cfg.Draft config)) as [url|e]; simpl; [|done].
  case_decide; [done|]. case_decide; [done|]. rewrite !bind_unfold.
  destruct (processFiles w config (Cfg.Input config) emptySchema)
    as [tr [merged| |]]; simpl; try done.
  by rewrite (applyAdditionalProperties_ext p1 p2).
Qed.

Lemma GenerateJsonSchema_run_exists w config :
  GenerateJsonSchema_run w config (GenerateJsonSchema w config).
Proof.
  exists setAdditionalProperties. split; [|done].
  intros s value. apply setAdditionalProperties_run_exists.
Qed.

(** C9.  Two runs on the same configuration and the same outside world,
    under whatever iteration orders, perform the same events (the bytes
    written to the output file among them) and end alike. *)
Theorem GenerateJsonSchema_deterministic (w : World) (config : Cfg.Config)
    (out1 out2 : M unit) :
  GenerateJsonSchema_run w config out1 →
  GenerateJsonSchema_run w config out2 →
  out1 = out2.
Proof.
  intros (p1 & Hp1 & ->) (p2 & Hp2 & ->).
  apply GenerateJsonSchema_with_ext. intros s value.
  rewrite (setAdditionalProperties_run_unique value s (p1 s value)) by done.
  by rewrite (setAdditionalProperties_run_unique value s (p2 s value)).
Qed.

Lemma GenerateJsonSchema_deterministic_witness :
  GenerateJsonSchema_run Sample.world (Sample.configOf ["servers.yaml"] 4)
    (GenerateJsonSchema Sample.world (Sample.configOf ["servers.yaml"] 4)) ∧
  GenerateJsonSchema_run Sample.world (Sample.configOf ["servers.yaml"] 4)
    ([EvReadFile "servers.yaml"; EvWriteFile "values.schema.json" [x0a];
      EvPrintln "JSON schema successfully generated"], Return tt) ∧
  GenerateJsonSchema Sample.world (Sample.configOf ["servers.yaml"] 4)
    = ([EvReadFile "servers.yaml"; EvWriteFile "values.schema.json" [x0a];
        EvPrintln "JSON schema successfully generated"], Return tt).
Proof.
  assert (GenerateJsonSchema_run Sample.world (Sample.configOf ["servers.yaml"] 4)
            ([EvReadFile "servers.yaml"; EvWriteFile "values.schema.json" [x0a];
              EvPrintln "JSON schema successfully generated"], Return tt))
    as Hrun.
  { exists setAdditionalProperties.
    split; [intros s value; apply setAdditionalProperties_run_exists|].
    vm_compute. reflexivity. }
  split; [apply GenerateJsonSchema_run_exists|]. split; [exact Hrun|].
  exact (GenerateJsonSchema_deterministic Sample.world
           (Sample.configOf ["servers.yaml"] 4) _ _
           (GenerateJsonSchema_run_exists _ _) Hrun).
Defined.

(** * Further properties of the generator *)

(** ** The propagator: composition, reach, fixed points *)

(** X1.  A second call of [setAdditionalProperties] overrides the first:
    the tree after the calls with [v1] and then [v2] is the tree after the
    call with [v2] alone.  In particular the call is idempotent. *)
Theorem setAdditionalProperties_twice (s : Schema) (v1 v2 : bool) :
  setAdditionalProperties (setAdditionalProperties s v1) v2
  = setAdditionalProperties s v2 ∧
  setAdditionalProperties (setAdditionalProperties s v1) v1
  = setAdditionalProperties s v1.
Proof.
  assert (∀ v1 v2 s, setAdditionalProperties (setAdditionalProperties s v1) v2
                     = setAdditionalProperties s v2) as Hcomp; [|by split].
  clear. intros v1 v2 s. induction s as [s IH] using Schema_size_ind.
  rewrite (setAdditionalProperties_unfold (setAdditionalProperties s v1) v2).
  rewrite (setAdditionalProperties_unfold s v1); simpl.
  rewrite (setAdditionalProperties_unfold s v2). f_equal.
  - rewrite rangeChildren_compose. apply rangeChildren_ext.
    intros k v Hk; simpl. apply IH. by eapply schemaSize_child.
  - destruct (Items s) as [it|] eqn:Hit; simpl; [|done]. f_equal.
    unfold setItemsProperties, setProperties; simpl. f_equal.
    rewrite rangeChildren_compose. apply rangeChildren_ext.
    intros k v Hk; simpl. apply IH.
    etrans; [by eapply schemaSize_child|by apply schemaSize_items].
  - by case_decide.
Qed.

Lemma reachFrom_Untouched path : reachFrom Untouched path = Untouched.
Proof. unfold reachFrom. by induction path as [|step path IH]. Qed.

Lemma fragmentAt_effectAt value r path s :
  fragmentAt path (effectAt value r s)
  = effectAt value (reachFrom r path) <$> fragmentAt path s.
Proof.
  revert r s. induction path as [|step path IH]; intros r s; [done|].
  destruct r.
  - destruct step as [k|]; simpl.
    + rewrite setAdditionalProperties_lookup.
      destruct (Properties s !! k) as [[v|]|]; simpl; [|done..].
      apply (IH Followed).
    + rewrite setAdditionalProperties_items.
      destruct (Items s) as [it|]; simpl; [|done]. apply (IH HeldInItems).
  - destruct step as [k|]; simpl.
    + rewrite rangeChildren_lookup.
      destruct (Properties s !! k) as [[v|]|]; simpl; [|done..].
      apply (IH Followed).
    + destruct (Items s) as [it|]; simpl; [|done]. apply (IH Untouched).
  - rewrite reachFrom_Untouched. cbn [effectAt].
    by destruct (fragmentAt (step :: path) s).
Qed.

(** X2.  The tree after [setAdditionalProperties] has the paths of the tree
    before it, and the fragment at the end of a path is: the result of the
    call on the old fragment, when the path goes through [Properties]
    entries, with every step through [Items] followed by one into the
    [Properties] found there; the old fragment with the call made on the
    children of its [Properties] only, when the path ends with one step
    through [Items]; the old fragment itself, once the path has gone
    through [Items] twice in a row. *)
Theorem setAdditionalProperties_fragmentAt (s : Schema) (value : bool)
    (path : list Step) :
  fragmentAt path (setAdditionalProperties s value)
  = effectAt value (reach path) <$> fragmentAt path s.
Proof. apply (fragmentAt_effectAt value Followed). Qed.

Lemma rangeChildren_id f m :
  (∀ k v, m !! k = Some (Some v) → f v = v) → rangeChildren f m = m.
Proof.
  intros Hf. apply map_eq. intros k. rewrite rangeChildren_lookup.
  destruct (m !! k) as [[v|]|] eqn:Hk; simpl; [|done..].
  by rewrite (Hf k v).
Qed.

(** X3.  [setAdditionalProperties] leaves a tree as it is exactly when
    every object the call recurses into already carries the value. *)
Theorem setAdditionalProperties_unchanged_iff (s : Schema) (value : bool) :
  setAdditionalProperties s value = s ↔
  ∀ path t, reach path = Followed → fragmentAt path s = Some t →
            Type_ t = "object" → AdditionalProperties t = Some value.
Proof.
  split.
  - intros Hsame path t Hreach Hat Hty.
    pose proof (fragmentAt_effectAt value Followed path s) as Heff.
    fold (reach path) in Heff. cbn [effectAt] in Heff.
    rewrite Hsame, Hat, Hreach in Heff. injection Heff as Heff.
    rewrite Heff. by apply setAdditionalProperties_root_object.
  - induction s as [s IH] using Schema_size_ind. intros Hall.
    rewrite setAdditionalProperties_unfold.
    assert (∀ k v, Properties s !! k = Some (Some v) →
                   setAdditionalProperties v value = v) as Hprops.
    { intros k v Hk. apply IH; [by eapply schemaSize_child|].
      intros path t Hreach Hat. apply (Hall (ViaProperty k :: path)); [done|].
      simpl. by rewrite Hk. }
    assert (setItemsProperties value <$> Items s = Items s) as Hitems.
    { destruct (Items s) as [it|] eqn:Hit; simpl; [|done]. f_equal.
      unfold setItemsProperties, setProperties.
      rewrite rangeChildren_id; [by destruct it|].
      intros k v Hk. apply IH.
      - etrans; [by eapply schemaSize_child|by apply schemaSize_items].
      - intros path t Hreach Hat.
        apply (Hall (ViaItems :: ViaProperty k :: path)); [done|].
        simpl. by rewrite Hit, Hk. }
    rewrite rangeChildren_id, Hitems by done.
    destruct (decide (Type_ s = "object")) as [Hty|Hty].
    + rewrite <-(Hall [] s) by done. by destruct s.
    + by destruct s.
Qed.

(** ** Sequencing *)

Lemma bind_ret_l {A B} (a : A) (f : A → M B) : mret a ≫= f = f a.
Proof. rewrite bind_unfold; simpl. by destruct (f a). Qed.

Lemma bind_assoc {A B C} (m : M A) (f : A → M B) (g : B → M C) :
  (m ≫= f) ≫= g = m ≫= (λ a, f a ≫= g).
Proof.
  rewrite !bind_unfold. destruct m as [tr [a| |]]; simpl; try done.
  rewrite bind_unfold. destruct (f a) as [tr' [b| |]]; simpl; try done.
  by rewrite app_assoc.
Qed.

(** X4.  The loop over the input files composes: going through a list of
    files is going through a first part of it and then, from the aggregate
    reached and only if no file failed, through the rest, the events of the
    second part following those of the first. *)
Theorem processFiles_app (w : World) (config : Cfg.Config)
    (first rest : list string) (merged : Schema) :
  processFiles w config (first ++ rest) merged =
  (processFiles w config first merged ≫= processFiles w config rest).
Proof.
  revert merged. induction first as [|filePath first IH]; intros merged.
  - change (processFiles w config rest merged
            = mret merged ≫= processFiles w config rest).
    by rewrite bind_ret_l.
  - change (processFiles w config (filePath :: (first ++ rest)) merged
            = processFiles w config (filePath :: first) merged
                ≫= processFiles w config rest).
    change (processFiles w config (filePath :: first ++ rest) merged)
      with (processFile w config merged filePath
              ≫= processFiles w config (first ++ rest)).
    change (processFiles w config (filePath :: first) merged)
      with (processFile w config merged filePath
              ≫= processFiles w config first).
    rewrite bind_assoc.
    rewrite !(bind_unfold _ (processFile w config merged filePath)).
    destruct (processFile w config merged filePath) as [tr [merged'| |]];
      simpl; try done.
    by rewrite IH.
Qed.

(** ** What a run touches *)

Lemma getFileContent_event w filePath :
  (getFileContent w filePath).1 = [accessEvent filePath].
Proof.
  unfold getFileContent, downloadFile, accessEvent.
  destruct (isURL filePath); rewrite !bind_unfold; simpl.
  - destruct (http_Get w filePath) as [resp|e]; simpl; [|done].
    case_decide; simpl; [done|]. by destruct (Body resp).
  - by destruct (os_ReadFile w filePath).
Qed.

Lemma processFile_event w config merged filePath :
  (processFile w config merged filePath).1 = [accessEvent filePath].
Proof.
  rewrite processFile_unfold; simpl.
  by rewrite inferFile_trace, getFileContent_event.
Qed.

(** The loop accesses the files in order, one access each, up to the first
    that fails; it goes through when none does. *)
Lemma processFiles_events w config input merged :
  ∃ n, n ≤ length input ∧
       (processFiles w config input merged).1 = accessEvent <$> take n input ∧
       (∀ merged', (processFiles w config input merged).2 = Return merged' →
                   n = length input).
Proof.
  revert merged. induction input as [|filePath rest IH]; intros merged.
  - exists 0. by repeat split.
  - rewrite processFiles_cons.
    pose proof (processFile_event w config merged filePath) as Hev.
    destruct (processFile w config merged filePath) as [tr [merged1|e|]];
      simpl in *; subst tr.
    + destruct (IH merged1) as (n & Hn & Htr & Hall).
      exists (S n). split; [lia|]. split; [by rewrite Htr|].
      intros merged' Hret. by rewrite (Hall _ Hret).
    + exists 1. split; [lia|]. by split.
    + exists 1. split; [lia|]. by split.
Qed.

Lemma processFiles_return_events w config input merged tr merged' :
  processFiles w config input merged = (tr, Return merged') →
  tr = accessEvent <$> input.
Proof.
  intros Hrun. destruct (processFiles_events w config input merged)
    as (n & _ & Htr & Hall).
  rewrite Hrun in Htr, Hall; simpl in *.
  rewrite (Hall merged' eq_refl) in Htr. by rewrite take_ge in Htr.
Qed.

(** The loop of lines 60-68 ends normally on an even number of nodes and
    panics on an odd number; it returns no error. *)
Lemma rootLoop_parity content properties required :
  if Nat.even (length content)
  then ∃ inferred, rootLoop content properties required = Return inferred
  else rootLoop content properties required = Panic.
Proof.
  revert properties required.
  assert ((∀ properties required,
             if Nat.even (length content)
             then ∃ inferred, rootLoop content properties required = Return inferred
             else rootLoop content properties required = Panic) ∧
          (∀ k properties required,
             if Nat.even (length (k :: content))
             then ∃ inferred,
                 rootLoop (k :: content) properties required = Return inferred
             else rootLoop (k :: content) properties required = Panic))
    as [Hgoal _]; [|done].
  induction content as [|v content [IH0 IH1]].
  - split; [by eexists|done].
  - split; [apply IH1|]. intros k properties required.
    change (Nat.even (length (k :: v :: content)))
      with (Nat.even (length content)).
    simpl. destruct (parseNode k v) as [schema isRequired]. apply IH0.
Qed.

Lemma rootLoop_no_error content properties required e :
  rootLoop content properties required ≠ Raise e.
Proof.
  pose proof (rootLoop_parity content properties required) as Hpar.
  destruct (Nat.even (length content)); [|by rewrite Hpar].
  by destruct Hpar as [inferred ->].
Qed.

Lemma inferFile_raise w filePath e :
  (inferFile w filePath).2 = Raise e → e ∈ inputErrors.
Proof.
  unfold inferFile, inputErrors. rewrite bind_unfold. unfold orFail at 1 2.
  destruct (getFileContent w filePath) as [tr [content|e'|]]; simpl;
    [|intros [= <-]; by left|done].
  rewrite bind_unfold.
  destruct (yaml_Unmarshal w content) as [node|e']; simpl;
    [|intros [= <-]; right; by left].
  destruct (yaml.Content node) as [|rootNode rest]; simpl; [done|].
  rewrite bind_unfold; simpl.
  pose proof (rootLoop_no_error (yaml.Content rootNode) ∅ []) as Hloop.
  destruct (rootLoop _ _ _) as [inferred|e'|]; simpl; try done.
  by destruct (Hloop e').
Qed.

Lemma processFiles_raise w config input merged e :
  (processFiles w config input merged).2 = Raise e → e ∈ inputErrors.
Proof.
  revert merged. induction input as [|filePath rest IH]; intros merged; [done|].
  rewrite processFiles_cons, processFile_unfold; simpl.
  pose proof (inferFile_raise w filePath) as Hraise.
  destruct (inferFile w filePath).2 as [[file|]|e'|]; simpl; try done.
  - apply IH.
  - apply IH.
  - intros [= <-]. by apply Hraise.
Qed.

Lemma writeSchema_cases w config schemaURL indentString merged :
  writeSchema w config schemaURL indentString merged =
  match convertSchemaToMap w merged with
  | Err e => ([], Raise e)
  | Ok jsonSchemaMap =>
      match json_MarshalIndent w (<["$schema" := JString schemaURL]> jsonSchemaMap)
              "" indentString with
      | Err e => ([], Raise e)
      | Ok jsonBytes =>
          match os_WriteFile w (Cfg.OutputPath config) (jsonBytes ++ [x0a]) with
          | Some _ =>
              ([EvWriteFile (Cfg.OutputPath config) (jsonBytes ++ [x0a])],
               Raise "error writing schema to file")
          | None =>
              ([EvWriteFile (Cfg.OutputPath config) (jsonBytes ++ [x0a]);
                EvPrintln "JSON schema successfully generated"], Return tt)
          end
      end
  end.
Proof.
  unfold writeSchema. rewrite bind_unfold.
  destruct (convertSchemaToMap w merged) as [jsonSchemaMap|e]; simpl; [|done].
  rewrite bind_unfold.
  destruct (json_MarshalIndent w _ "" indentString) as [jsonBytes|e]; simpl;
    [|done].
  rewrite bind_unfold; simpl.
  by destruct (os_WriteFile w _ _).
Qed.

(** The checks of lines 18-34, in their order, either stop the run or hand
    over to the loop and the writing of the schema. *)
Lemma GenerateJsonSchema_phases w config :
  (Cfg.Input config = [] ∧
   GenerateJsonSchema w config = ([], Raise "input flag is required")) ∨
  (Cfg.Input config ≠ [] ∧
   ∃ e, getSchemaURL w (Cfg.Draft config) = Err e ∧
        GenerateJsonSchema w config = ([], Raise e)) ∨
  (Cfg.Input config ≠ [] ∧
   ∃ schemaURL, getSchemaURL w (Cfg.Draft config) = Ok schemaURL ∧
     (Cfg.Indent config ≤ 0)%Z ∧
     GenerateJsonSchema w config
       = ([], Raise "indentation must be a positive number")) ∨
  (Cfg.Input config ≠ [] ∧
   ∃ schemaURL, getSchemaURL w (Cfg.Draft config) = Ok schemaURL ∧
     (0 < Cfg.Indent config)%Z ∧ Z.odd (Cfg.Indent config) = true ∧
     GenerateJsonSchema w config
       = ([], Raise "indentation must be an even number")) ∨
  (Cfg.Input config ≠ [] ∧
   ∃ schemaURL, getSchemaURL w (Cfg.Draft config) = Ok schemaURL ∧
     (0 < Cfg.Indent config)%Z ∧ Z.even (Cfg.Indent config) = true ∧
     GenerateJsonSchema w config =
       (processFiles w config (Cfg.Input config) emptySchema ≫= λ merged,
        writeSchema w config schemaURL (strings_Repeat " " (Cfg.Indent config))
          (applyAdditionalProperties setAdditionalProperties config merged))).
Proof.
  unfold GenerateJsonSchema, GenerateJsonSchema_with.
  case_decide as Hinput.
  { left. split; [|done]. by destruct (Cfg.Input config). }
  assert (Cfg.Input config ≠ []) as Hinput' by (by destruct (Cfg.Input config)).
  right. rewrite (bind_unfold _ (lift _)).
  destruct (getSchemaURL w (Cfg.Draft config)) as [url|e] eqn:Hurl; simpl.
  2:{ left. split; [done|]. by exists e. }
  right. case_decide as Hpos.
  { left. split; [done|]. by exists url. }
  right. case_decide as Hodd.
  { left. split; [done|]. exists url. split; [done|]. split; [lia|].
    split; [|done]. rewrite Zodd_rem. apply negb_true_iff.
    by apply Z.eqb_neq. }
  right. split; [done|]. exists url. split; [done|]. split; [lia|]. split.
  - rewrite Zeven_rem. by apply Z.eqb_eq.
  - symmetry. apply surjective_pairing.
Qed.

Lemma inputErrors_fixed e : e ∈ inputErrors → e ∈ fixedErrors.
Proof.
  unfold inputErrors, fixedErrors.
  intros [->|[->|Hin%elem_of_nil]%elem_of_cons]%elem_of_cons;
    [by repeat constructor..|done].
Qed.

(** X5.  An error [GenerateJsonSchema] returns is one of the six it makes
    itself, or one handed up unchanged from [getSchemaURL],
    [convertSchemaToMap] or [json.MarshalIndent]; the errors of the file
    system, of the network and of the YAML parser never surface. *)
Theorem returned_errors (w : World) (config : Cfg.Config)
    (tr : list Event) (e : error) :
  GenerateJsonSchema w config = (tr, Raise e) →
  e ∈ fixedErrors ∨
  getSchemaURL w (Cfg.Draft config) = Err e ∨
  (∃ merged, convertSchemaToMap w merged = Err e) ∨
  (∃ jsonSchemaMap indentString,
     json_MarshalIndent w jsonSchemaMap "" indentString = Err e).
Proof.
  intros Hrun.
  destruct (GenerateJsonSchema_phases w config)
    as [[_ Hstop]|[(_ & e' & Hurl & Hstop)|[(_ & url & _ & _ & Hstop)
       |[(_ & url & _ & _ & _ & Hstop)|(_ & url & _ & _ & _ & Hgo)]]]].
  - rewrite Hstop in Hrun. injection Hrun as <- <-.
    left. unfold fixedErrors. by repeat constructor.
  - rewrite Hstop in Hrun. injection Hrun as <- <-. by auto.
  - rewrite Hstop in Hrun. injection Hrun as <- <-.
    left. unfold fixedErrors. by repeat constructor.
  - rewrite Hstop in Hrun. injection Hrun as <- <-.
    left. unfold fixedErrors. by repeat constructor.
  - rewrite Hgo, bind_unfold in Hrun.
    pose proof (processFiles_raise w config (Cfg.Input config) emptySchema) as Hloop.
    destruct (processFiles w config (Cfg.Input config) emptySchema)
      as [tr1 [merged|e1|]]; simpl in *; [|injection Hrun as <- <-|done].
    + rewrite writeSchema_cases in Hrun.
      destruct (convertSchemaToMap w _) as [jsonSchemaMap|e1] eqn:Hmap;
        simpl in Hrun; [|injection Hrun as <- <-; by eauto].
      destruct (json_MarshalIndent w _ "" _) as [jsonBytes|e1] eqn:Hjson;
        simpl in Hrun; [|injection Hrun as <- <-; by eauto 6].
      destruct (os_WriteFile w _ _); simpl in Hrun; [|done].
      injection Hrun as <- <-. left. unfold fixedErrors. by repeat constructor.
    + left. by apply inputErrors_fixed, Hloop.
Qed.

Lemma returned_errors_witness :
  GenerateJsonSchema Sample.world (Sample.configOf ["broken.yaml"] 4)
    = ([EvReadFile "broken.yaml"], Raise "error unmarshaling YAML") ∧
  "error unmarshaling YAML" ∈ fixedErrors.
Proof.
  assert (GenerateJsonSchema Sample.world (Sample.configOf ["broken.yaml"] 4)
          = ([EvReadFile "broken.yaml"], Raise "error unmarshaling YAML"))
    as Hrun by (by vm_compute).
  split; [exact Hrun|].
  destruct (returned_errors Sample.world (Sample.configOf ["broken.yaml"] 4)
              _ _ Hrun) as [Hfixed|[Hurl|[[merged Hmap]|(m & i & Hjson)]]];
    [exact Hfixed|discriminate Hurl|discriminate Hmap|discriminate Hjson].
Defined.

(** X6.  What a run does to the outside world.  Either it stops before
    writing: it has accessed the first [n] input files, in order, once
    each, a URL by a request and any other path by a read, and nothing
    else; or it has accessed all the input files so and then written the
    output file, once, and that write failed; or it has done the same,
    the write went through, and it has printed the closing line, and then
    it returns [nil].  The closing line is printed by a run that succeeds
    and by no other. *)
Theorem run_events (w : World) (config : Cfg.Config) :
  (∃ n, (GenerateJsonSchema w config).1
          = accessEvent <$> take n (Cfg.Input config) ∧
        ∀ u, (GenerateJsonSchema w config).2 ≠ Return u) ∨
  (∃ data, GenerateJsonSchema w config
           = ((accessEvent <$> Cfg.Input config)
                ++ [EvWriteFile (Cfg.OutputPath config) data],
              Raise "error writing schema to file")) ∨
  (∃ data, GenerateJsonSchema w config
           = ((accessEvent <$> Cfg.Input config)
                ++ [EvWriteFile (Cfg.OutputPath config) data;
                    EvPrintln "JSON schema successfully generated"],
              Return tt)).
Proof.
  destruct (GenerateJsonSchema_phases w config)
    as [[_ Hstop]|[(_ & e' & Hurl & Hstop)|[(_ & url & _ & _ & Hstop)
       |[(_ & url & _ & _ & _ & Hstop)|(_ & url & _ & _ & _ & Hgo)]]]];
    [left; exists 0; by rewrite Hstop..|].
  rewrite Hgo, bind_unfold.
  {
    destruct (processFiles_events w config (Cfg.Input config) emptySchema)
      as (n & Hn & Htr & Hall).
    destruct (processFiles w config (Cfg.Input config) emptySchema)
      as [tr1 [merged|e1|]]; simpl in *;
      [|left; by exists n..].
    rewrite (Hall merged eq_refl), take_ge in Htr by done. subst tr1.
    rewrite writeSchema_cases.
    destruct (convertSchemaToMap w _) as [jsonSchemaMap|e1]; simpl.
    2:{ left. exists (length (Cfg.Input config)).
        by rewrite take_ge, app_nil_r. }
    destruct (json_MarshalIndent w _ "" _) as [jsonBytes|e1]; simpl.
    2:{ left. exists (length (Cfg.Input config)).
        by rewrite take_ge, app_nil_r. }
    destruct (os_WriteFile w _ _); simpl; right; [left|right]; by eexists.
  }
Qed.

(** X7.  [GenerateJsonSchema] returns [nil] exactly when the input list is
    not empty, the draft resolves to a URL, the indentation is positive and
    even, every input file is processed, [convertSchemaToMap] and
    [json.MarshalIndent] succeed and the output file can be written.  What
    is written is then the serialization, indented by as many spaces as
    configured, of the map of the final fragment with [$schema] set to the
    URL of the draft (whatever the map held under that key), followed by
    one newline. *)
Theorem success_iff (w : World) (config : Cfg.Config) (tr : list Event) :
  GenerateJsonSchema w config = (tr, Return tt) ↔
  ∃ schemaURL merged jsonSchemaMap jsonBytes,
    Cfg.Input config ≠ [] ∧
    getSchemaURL w (Cfg.Draft config) = Ok schemaURL ∧
    (0 < Cfg.Indent config)%Z ∧ Z.even (Cfg.Indent config) = true ∧
    processFiles w config (Cfg.Input config) emptySchema
      = (accessEvent <$> Cfg.Input config, Return merged) ∧
    convertSchemaToMap w
      (applyAdditionalProperties setAdditionalProperties config merged)
      = Ok jsonSchemaMap ∧
    json_MarshalIndent w (<["$schema" := JString schemaURL]> jsonSchemaMap) ""
      (strings_Repeat " " (Cfg.Indent config)) = Ok jsonBytes ∧
    os_WriteFile w (Cfg.OutputPath config) (jsonBytes ++ [x0a]) = None ∧
    tr = (accessEvent <$> Cfg.Input config)
           ++ [EvWriteFile (Cfg.OutputPath config) (jsonBytes ++ [x0a]);
               EvPrintln "JSON schema successfully generated"].
Proof.
  destruct (GenerateJsonSchema_phases w config)
    as [[Hnil Hstop]|[(_ & e' & Hbad & Hstop)|[(_ & url & _ & Hle & Hstop)
       |[(_ & url & _ & _ & Hodd & Hstop)|(Hinput & url & Hurl & Hpos & Heven & Hgo)]]]].
  - split; [by rewrite Hstop|]. by intros (? & ? & ? & ? & ? & _).
  - split; [by rewrite Hstop|].
    intros (? & ? & ? & ? & _ & ? & _). congruence.
  - split; [by rewrite Hstop|].
    intros (? & ? & ? & ? & _ & _ & ? & _). lia.
  - split; [by rewrite Hstop|].
    intros (? & ? & ? & ? & _ & _ & _ & Heven & _).
    by rewrite <-Z.negb_odd, Hodd in Heven.
  - rewrite Hgo, bind_unfold. split.
    + pose proof (processFiles_return_events w config (Cfg.Input config)
                    emptySchema) as Hreads.
      destruct (processFiles w config (Cfg.Input config) emptySchema)
        as [tr1 [merged|e1|]]; simpl; [|done..].
      rewrite (Hreads tr1 merged eq_refl). rewrite writeSchema_cases.
      destruct (convertSchemaToMap w _) as [m|e1] eqn:Hmap; simpl; [|done].
      destruct (json_MarshalIndent w _ "" _) as [body|e1] eqn:Hjson; simpl;
        [|done].
      destruct (os_WriteFile w _ _) eqn:Hwrite; simpl; [done|].
      intros [= <-]. exists url, merged, m, body. by repeat split.
    + intros (url' & merged & m & body & _ & Hurl' & _ & _ & Hloop & Hmap
              & Hjson & Hwrite & ->).
      assert (url' = url) as -> by congruence.
      rewrite Hloop; simpl. rewrite writeSchema_cases, Hmap, Hjson, Hwrite.
      done.
Qed.

(** X8.  The configuration is checked in the order input, draft,
    indentation, and the first check that fails decides the error: with no
    input nothing else is looked at; an error of [getSchemaURL] is returned
    as it is, even when the indentation is wrong too; an indentation that
    is not positive is reported as such whether it is odd or even; only a
    positive odd one is reported as odd. *)
Theorem configuration_checks_in_order (w : World) (config : Cfg.Config) :
  (Cfg.Input config = [] →
   GenerateJsonSchema w config = ([], Raise "input flag is required")) ∧
  (Cfg.Input config ≠ [] →
   ∀ e, getSchemaURL w (Cfg.Draft config) = Err e →
        GenerateJsonSchema w config = ([], Raise e)) ∧
  (Cfg.Input config ≠ [] →
   ∀ schemaURL, getSchemaURL w (Cfg.Draft config) = Ok schemaURL →
     ((Cfg.Indent config ≤ 0)%Z →
      GenerateJsonSchema w config
        = ([], Raise "indentation must be a positive number")) ∧
     ((0 < Cfg.Indent config)%Z → Z.odd (Cfg.Indent config) = true →
      GenerateJsonSchema w config
        = ([], Raise "indentation must be an even number"))).
Proof.
  destruct (GenerateJsonSchema_phases w config)
    as [[Hnil Hstop]|[(Hinput & e' & Hbad & Hstop)
       |[(Hinput & url & Hurl & Hle & Hstop)
       |[(Hinput & url & Hurl & Hpos & Hodd & Hstop)
       |(Hinput & url & Hurl & Hpos & Heven & Hgo)]]]].
  - split; [done|]. split; intros Hinput; by destruct Hinput.
  - split; [done|]. split; intros _.
    + intros e He. congruence.
    + intros url Hurl. congruence.
  - split; [done|]. split; intros _.
    + intros e He. congruence.
    + intros url' _. split; [done|]. intros. lia.
  - split; [done|]. split; intros _.
    + intros e He. congruence.
    + intros url' _. split; [|done]. intros. lia.
  - split; [done|]. split; intros _.
    + intros e He. congruence.
    + intros url' _. split; [intros; lia|].
      intros _ Hodd. by rewrite <-Z.negb_odd, Hodd in Heven.
Qed.

(** ** Remote input *)

(** X9.  A URL that answers with a status other than 200 counts as a file
    that cannot be read: [downloadFile] returns an error made of the status
    line, the loop replaces it by its own, and the body of the response,
    YAML or not, is not looked at. *)
Theorem http_status_is_read_failure (w : World) (config : Cfg.Config)
    (merged : Schema) (url : string) (resp : Response) :
  isURL url = true →
  http_Get w url = Ok resp →
  StatusCode resp ≠ 200%Z →
  downloadFile w url
    = ([EvHttpGet url], Raise ("failed to download file: " +:+ Status resp)) ∧
  processFile w config merged url
    = ([EvHttpGet url], Raise "error reading YAML file(s)").
Proof.
  intros Hurl Hget Hstatus.
  assert (downloadFile w url
          = ([EvHttpGet url],
             Raise ("failed to download file: " +:+ Status resp))) as Hdown.
  { unfold downloadFile. rewrite !bind_unfold; simpl. rewrite Hget; simpl.
    by rewrite decide_True. }
  split; [done|].
  rewrite processFile_unfold. unfold inferFile, getFileContent.
  by rewrite Hurl, Hdown.
Qed.

Lemma http_status_is_read_failure_witness :
  isURL "https://example.com/gone.yaml" = true ∧
  http_Get SampleNet.world "https://example.com/gone.yaml"
    = Ok (mkResponse 404 "404 Not Found" (Ok [x6e])) ∧
  processFile SampleNet.world (Sample.configOf [] 4) emptySchema
    "https://example.com/gone.yaml"
    = ([EvHttpGet "https://example.com/gone.yaml"],
       Raise "error reading YAML file(s)").
Proof.
  split; [reflexivity|]. split; [reflexivity|].
  apply (http_status_is_read_failure SampleNet.world (Sample.configOf [] 4)
           emptySchema "https://example.com/gone.yaml"
           (mkResponse 404 "404 Not Found" (Ok [x6e])));
    [reflexivity|reflexivity|done].
Defined.

(** X10.  A URL that answers 200 is processed as a local file with the same
    bytes is: the two leave the same aggregate, or fail alike; only the
    access differs, a request for the one and a read for the other. *)
Theorem fetched_like_read (w : World) (config : Cfg.Config) (merged : Schema)
    (url path : string) (resp : Response) :
  isURL url = true → isURL path = false →
  http_Get w url = Ok resp → StatusCode resp = 200%Z →
  Body resp = os_ReadFile w path →
  (processFile w config merged url).2 = (processFile w config merged path).2 ∧
  (processFile w config merged url).1 = [EvHttpGet url] ∧
  (processFile w config merged path).1 = [EvReadFile path].
Proof.
  intros Hurl Hpath Hget Hstatus Hbody.
  split; [|split].
  - rewrite !processFile_unfold; simpl.
    assert ((inferFile w url).2 = (inferFile w path).2) as ->; [|done].
    unfold inferFile, getFileContent, downloadFile. rewrite Hurl, Hpath.
    rewrite !bind_unfold; simpl. rewrite Hget; simpl.
    rewrite decide_False by (by intros ?). rewrite Hbody.
    destruct (os_ReadFile w path) as [content|e]; simpl; [|done].
    rewrite !bind_unfold.
    destruct (yaml_Unmarshal w content) as [node|e]; simpl; [|done].
    destruct (yaml.Content node) as [|rootNode rest]; simpl; [done|].
    rewrite !bind_unfold; simpl. by destruct (rootLoop _ _ _).
  - rewrite processFile_event. unfold accessEvent. by rewrite Hurl.
  - rewrite processFile_event. unfold accessEvent. by rewrite Hpath.
Qed.

Lemma fetched_like_read_witness :
  isURL "https://example.com/values.yaml" = true ∧
  isURL "name.yaml" = false ∧
  (processFile SampleNet.world (Sample.configOf [] 4) emptySchema
     "https://example.com/values.yaml").2
  = (processFile SampleNet.world (Sample.configOf [] 4) emptySchema
       "name.yaml").2.
Proof.
  split; [reflexivity|]. split; [reflexivity|].
  apply (fetched_like_read SampleNet.world (Sample.configOf [] 4) emptySchema
           "https://example.com/values.yaml" "name.yaml"
           (mkResponse 200 "200 OK" (Ok [x6e]))); reflexivity.
Defined.

(** ** The loop over the root node *)

(** X11.  The loop of lines 60-68 takes the children of the root node two
    by two, whatever the kind of the root.  A file that is read and parsed
    and whose root has an odd number of children (a sequence of three
    scalars, say) makes the run panic at [rootNode.Content[i+1]], right
    after the file has been read. *)
Theorem odd_root_panics (w : World) (config : Cfg.Config) (merged : Schema)
    (filePath : string) (tr : list Event) (content : list byte)
    (node rootNode : yaml.Node) (others : list yaml.Node) :
  getFileContent w filePath = (tr, Return content) →
  yaml_Unmarshal w content = Ok node →
  yaml.Content node = rootNode :: others →
  Nat.even (length (yaml.Content rootNode)) = false →
  processFile w config merged filePath = (tr, Panic) ∧
  ∀ rest, processFiles w config (filePath :: rest) merged = (tr, Panic).
Proof.
  intros Hread Hparse Hroot Hodd.
  assert (processFile w config merged filePath = (tr, Panic)) as Hfile.
  { rewrite processFile_unfold.
    unfold inferFile. rewrite Hread; simpl. rewrite !bind_unfold; simpl.
    rewrite Hparse; simpl. rewrite Hroot; simpl. rewrite !bind_unfold; simpl.
    pose proof (rootLoop_parity (yaml.Content rootNode) ∅ []) as Hpar.
    rewrite Hodd in Hpar. rewrite Hpar; simpl. by rewrite !app_nil_r. }
  split; [done|]. intros rest. by rewrite processFiles_cons, Hfile.
Qed.

Lemma odd_root_panics_witness :
  getFileContent SampleNet.world "list.yaml"
    = ([EvReadFile "list.yaml"], Return [x2d]) ∧
  yaml_Unmarshal SampleNet.world [x2d] = Ok SampleNet.listDoc ∧
  GenerateJsonSchema SampleNet.world (Sample.configOf ["list.yaml"] 4)
    = ([EvReadFile "list.yaml"], Panic) ∧
  processFile SampleNet.world (Sample.configOf [] 4) emptySchema "list.yaml"
    = ([EvReadFile "list.yaml"], Panic).
Proof.
  split; [reflexivity|]. split; [reflexivity|]. split; [by vm_compute|].
  destruct (odd_root_panics SampleNet.world (Sample.configOf [] 4) emptySchema
              "list.yaml" [EvReadFile "list.yaml"] [x2d] SampleNet.listDoc
              (Sample.sequence [Sample.scalar "!!str" "a";
                                Sample.scalar "!!str" "b";
                                Sample.scalar "!!str" "c"]) [])
    as [Hfile _]; [reflexivity..|].
  exact Hfile.
Defined.

Lemma rootLoop_accumulates content properties required properties' required' :
  rootLoop content properties required = Return (properties', required') →
  dom properties' = dom properties ∪ list_to_set (contentKeys content) ∧
  ∃ added, required' = required ++ added ∧
           added `sublist_of` contentKeys content.
Proof.
  revert properties required.
  assert ((∀ properties required,
             rootLoop content properties required
               = Return (properties', required') →
             dom properties' = dom properties ∪ list_to_set (contentKeys content) ∧
             ∃ added, required' = required ++ added ∧
                      added `sublist_of` contentKeys content) ∧
          (∀ k properties required,
             rootLoop (k :: content) properties required
               = Return (properties', required') →
             dom properties'
               = dom properties ∪ list_to_set (contentKeys (k :: content)) ∧
             ∃ added, required' = required ++ added ∧
                      added `sublist_of` contentKeys (k :: content)))
    as [Hgoal _]; [|done].
  induction content as [|v content [IH0 IH1]].
  - split; [|done]. intros properties required [= <- <-]. split.
    + simpl. by rewrite (right_id_L ∅ (∪)).
    + exists []. by rewrite app_nil_r.
  - split; [apply IH1|]. intros k properties required Hloop.
    simpl in Hloop. destruct (parseNode k v) as [schema isRequired].
    apply IH0 in Hloop as (Hdom & added & -> & Hsub). split.
    + rewrite Hdom, dom_insert_L. simpl.
      by rewrite (comm_L (∪) {[yaml.Value k]} (dom properties)), (assoc_L (∪)).
    + destruct isRequired.
      * exists (yaml.Value k :: added). split; [by rewrite <-app_assoc|].
        simpl. by apply sublist_skip.
      * exists added. split; [done|]. simpl. by apply sublist_cons.
Qed.

(** X12.  When the loop of lines 60-68 ends normally, the properties it has
    built have exactly the key nodes' values as keys, and the required
    list is drawn from those values in document order: it is a sublist of
    the list of keys, so every required name has a property. *)
Theorem rootLoop_keys (content : list yaml.Node)
    (properties : gmap string (option Schema)) (required : list string) :
  rootLoop content ∅ [] = Return (properties, required) →
  dom properties = list_to_set (contentKeys content) ∧
  required `sublist_of` contentKeys content ∧
  (∀ name, name ∈ required → is_Some (properties !! name)).
Proof.
  intros (Hdom & added & -> & Hsub)%rootLoop_accumulates.
  rewrite dom_empty_L, (left_id_L ∅ (∪)) in Hdom.
  split; [done|]. split; [done|]. intros name Hname; simpl in Hname.
  apply elem_of_dom. rewrite Hdom. apply elem_of_list_to_set.
  by eapply elem_of_sublist.
Qed.

Lemma rootLoop_keys_witness :
  ∃ properties,
    rootLoop (yaml.mappingContent Sample.nameAndNote) ∅ []
      = Return (properties, ["name"]) ∧
    dom properties = {[ "name"; "note" ]}.
Proof.
  eexists. split; [vm_compute; reflexivity|].
  edestruct (rootLoop_keys (yaml.mappingContent Sample.nameAndNote))
    as (Hdom & _); [vm_compute; reflexivity|].
  rewrite Hdom. by vm_compute.
Defined.

(** ** The two policies on an object *)

(** The paths the call follows are those that end in a fragment it
    recurses into. *)
Lemma visited_reach path : visited path = true ↔ reach path = Followed.
Proof.
  unfold reach.
  assert ((visited path = true ↔ reachFrom Followed path = Followed) ∧
          (visited (ViaItems :: path) = true
           ↔ reachFrom HeldInItems path = Followed)) as [Hgoal _]; [|done].
  induction path as [|[k|] path [IH0 IH1]].
  - by split.
  - split; [apply IH0|apply IH0].
  - split; [apply IH1|].
    change (false = true ↔ reachFrom Untouched path = Followed).
    by rewrite reachFrom_Untouched.
Qed.

(** X13.  When the policy for all levels is configured and the merged
    fragment is an object, the root-only policy has no effect at all: the
    final tree is the one [setAdditionalProperties] makes of the merged
    fragment, whether the root-only flag is set or not and whatever its
    value. *)
Theorem root_policy_overridden (config : Cfg.Config) (merged : Schema) :
  Cfg.IsSet (Cfg.All.AdditionalProperties (Cfg.SchemaAll config)) = true →
  Type_ merged = "object" →
  applyAdditionalProperties setAdditionalProperties config merged
  = setAdditionalProperties merged
      (Cfg.Value (Cfg.All.AdditionalProperties (Cfg.SchemaAll config))).
Proof.
  intros Hall Hty. unfold applyAdditionalProperties. rewrite Hall.
  destruct (Cfg.IsSet (Cfg.Root.AdditionalProperties (Cfg.SchemaRoot config)));
    [|done].
  rewrite !setAdditionalProperties_unfold; simpl.
  by rewrite !decide_True.
Qed.

Lemma root_policy_overridden_witness :
  Cfg.IsSet (Cfg.All.AdditionalProperties
               (Cfg.SchemaAll (Sample.configOf [] 4))) = true ∧
  Type_ Sample.serversSchema = "object" ∧
  applyAdditionalProperties setAdditionalProperties (Sample.configOf [] 4)
    Sample.serversSchema
  = setAdditionalProperties Sample.serversSchema false.
Proof.
  split; [reflexivity|]. split; [reflexivity|].
  apply (root_policy_overridden (Sample.configOf [] 4) Sample.serversSchema);
    reflexivity.
Defined.
